(** * xStreamTool_go: the in-memory todo store

    A shallow embedding of [internal/models] (Todo, TodoRequest,
    TodoResponse, ToResponse, FromRequest) and of [internal/store]
    (MemoryStore and its seven operations, NewMemoryStore, Seed), followed
    by the properties of the store that the specification states.

    Conventions of the embedding.
    - Go's [int] is the 64-bit signed integer: a [Z] on which every
      addition performed by the code is wrapped by [wrap_int].
    - [time.Time] is an instant, counted in nanoseconds from Go's zero
      time (January 1, year 1, 00:00:00 UTC); [time.Duration] is a number of
      nanoseconds.  [time.Now()] is an input of every operation that calls
      it (the argument [now]).
    - [map[int]*models.Todo] is a [gmap Z Todo].  Every [*Todo] is allocated
      once (by CreateTodo or Seed) and stored under exactly one key, so the
      map from keys to pointees is the whole content of the store; the
      in-place mutation of UpdateTodo is an update of the value bound to the
      key.
    - The order in which [range] visits a Go map is not specified, and
      [sort.Slice] is not stable: both are parameters of the operations
      that use them, constrained only by what the Go runtime and the [sort]
      package guarantee. *)

From Stdlib Require Import ZArith String Ascii List Lia.
From stdpp Require Import functions gmap strings list sorting.

Open Scope Z_scope.

(* ===================================================================== *)
(** * Go base types *)
(* ===================================================================== *)

Module Go.

Definition int_min : Z := - 2 ^ 63.
Definition int_max : Z := 2 ^ 63 - 1.

(** Two's complement wrap-around of a 64-bit signed [int]. *)
Definition wrap_int (z : Z) : Z := (z - int_min) mod 2 ^ 64 + int_min.

(** [x++] on an [int]. *)
Definition incr (x : Z) : Z := wrap_int (x + 1).

(** [m[k]++] on a map to [int]: a missing key reads as 0. *)
Definition map_incr `{Countable K} (k : K) (m : gmap K Z) : gmap K Z :=
  <[k := incr (default 0 (m !! k))]> m.

Definition Time : Type := Z.
Definition Duration : Type := Z.

Definition Hour : Duration := 3600 * 1000000000.

Definition Add (t : Time) (d : Duration) : Time := t + d.
Definition IsZero (t : Time) : bool := t =? 0.
Definition Before (t u : Time) : bool := t <? u.
Definition After (t u : Time) : bool := u <? t.

(** [strings.HasPrefix] and [strings.Contains], byte by byte. *)
Fixpoint HasPrefix (s prefix : string) {struct prefix} : bool :=
  match prefix with
  | EmptyString => true
  | String c prefix' =>
      match s with
      | EmptyString => false
      | String d s' => Ascii.eqb d c && HasPrefix s' prefix'
      end
  end.

Fixpoint Contains (s substr : string) : bool :=
  HasPrefix s substr ||
  match s with
  | EmptyString => false
  | String _ s' => Contains s' substr
  end.

(** A call returning [(T, error)]. *)
Inductive result (E A : Type) : Type :=
  | Ok (a : A)
  | Err (e : E).
Arguments Ok {E A} a.
Arguments Err {E A} e.

End Go.

Import Go.

(* ===================================================================== *)
(** * Package models *)
(* ===================================================================== *)

Record Todo : Type := mkTodo {
  ID : Z;
  Title : string;
  Description : string;
  Completed : bool;
  Priority : Z;
  Category : string;
  DueDate : Time;
  CreatedAt : Time;
  UpdatedAt : Time
}.

Record TodoRequest : Type := mkTodoRequest {
  req_Title : string;
  req_Description : string;
  req_Completed : bool;
  req_Priority : Z;
  req_Category : string;
  req_DueDate : Time
}.

Record TodoResponse : Type := mkTodoResponse {
  resp_ID : Z;
  resp_Title : string;
  resp_Description : string;
  resp_Completed : bool;
  resp_Priority : Z;
  resp_Category : string;
  resp_DueDate : Time;
  resp_CreatedAt : Time;
  resp_UpdatedAt : Time;
  resp_Status : string;
  resp_IsOverdue : bool
}.

#[global] Instance Todo_eq_dec : EqDecision Todo.
Proof. solve_decision. Defined.

(** The three status strings of the source. *)
Definition status_in_progress : string := "进行中".
Definition status_completed : string := "已完成".
Definition status_overdue : string := "已过期".

(** [isOverdue] as ToResponse computes it. *)
Definition isOverdue (now : Time) (t : Todo) : bool :=
  negb (Completed t) && negb (IsZero (DueDate t)) && Before (DueDate t) now.

Definition ToResponse (now : Time) (t : Todo) : TodoResponse :=
  let status :=
    if Completed t then status_completed
    else if isOverdue now t then status_overdue
    else status_in_progress in
  {| resp_ID := ID t;
     resp_Title := Title t;
     resp_Description := Description t;
     resp_Completed := Completed t;
     resp_Priority := Priority t;
     resp_Category := Category t;
     resp_DueDate := DueDate t;
     resp_CreatedAt := CreatedAt t;
     resp_UpdatedAt := UpdatedAt t;
     resp_Status := status;
     resp_IsOverdue := isOverdue now t |}.

Definition FromRequest (now : Time) (req : TodoRequest) (t : Todo) : Todo :=
  {| ID := ID t;
     Title := req_Title req;
     Description := req_Description req;
     Completed := req_Completed req;
     Priority := req_Priority req;
     Category := req_Category req;
     DueDate := req_DueDate req;
     CreatedAt := CreatedAt t;
     UpdatedAt := now |}.

(* ===================================================================== *)
(** * Package store *)
(* ===================================================================== *)

Inductive error : Type :=
  | ErrTodoNotFound
  | ErrInvalidID.

(** The data guarded by [mu]. *)
Record MemoryStore : Type := mkMemoryStore {
  todos : gmap Z Todo;
  nextID : Z
}.

Definition Seed (now : Time) (s : MemoryStore) : MemoryStore :=
  let todos1 :=
    <[1 := {| ID := 1;
              Title := "学习 Go 语言";
              Description := "掌握 Go 语言的基础语法和并发编程";
              Completed := false;
              Priority := 3;
              Category := "学习";
              DueDate := Add now (7 * 24 * Hour);
              CreatedAt := Add now (-2 * 24 * Hour);
              UpdatedAt := Add now (-2 * 24 * Hour) |}]> (todos s) in
  let todos2 :=
    <[2 := {| ID := 2;
              Title := "编写 HTTP 服务器";
              Description := "使用 Go 实现一个完整的 HTTP 服务器";
              Completed := true;
              Priority := 4;
              Category := "项目";
              DueDate := Add now (-1 * 24 * Hour);
              CreatedAt := Add now (-3 * 24 * Hour);
              UpdatedAt := Add now (-1 * 24 * Hour) |}]> todos1 in
  let todos3 :=
    <[3 := {| ID := 3;
              Title := "部署到服务器";
              Description := "将应用部署到生产环境";
              Completed := false;
              Priority := 2;
              Category := "运维";
              DueDate := Add now (3 * 24 * Hour);
              CreatedAt := Add now (-1 * 24 * Hour);
              UpdatedAt := Add now (-1 * 24 * Hour) |}]> todos2 in
  {| todos := todos3; nextID := 4 |}.

Definition NewMemoryStore (now : Time) : MemoryStore :=
  Seed now {| todos := ∅; nextID := 1 |}.

Definition GetTodoByID (s : MemoryStore) (id : Z) : result error Todo :=
  match todos s !! id with
  | None => Err ErrTodoNotFound
  | Some todo => Ok todo
  end.

Definition CreateTodo (now : Time) (s : MemoryStore) (req : TodoRequest)
  : MemoryStore * result error Todo :=
  let todo :=
    {| ID := nextID s;
       Title := req_Title req;
       Description := req_Description req;
       Completed := req_Completed req;
       Priority := req_Priority req;
       Category := req_Category req;
       DueDate := req_DueDate req;
       CreatedAt := now;
       UpdatedAt := now |} in
  ({| todos := <[ID todo := todo]> (todos s); nextID := incr (nextID s) |},
   Ok todo).

Definition UpdateTodo (now : Time) (s : MemoryStore) (id : Z) (req : TodoRequest)
  : MemoryStore * result error Todo :=
  match todos s !! id with
  | None => (s, Err ErrTodoNotFound)
  | Some todo =>
      let todo' := FromRequest now req todo in
      ({| todos := <[id := todo']> (todos s); nextID := nextID s |}, Ok todo')
  end.

(** DeleteTodo returns an [error]: [None] is Go's [nil]. *)
Definition DeleteTodo (s : MemoryStore) (id : Z) : MemoryStore * option error :=
  match todos s !! id with
  | None => (s, Some ErrTodoNotFound)
  | Some _ => ({| todos := delete id (todos s); nextID := nextID s |}, None)
  end.

(** [len(m)]: the number of entries, as an [int]. *)
Definition len (m : gmap Z Todo) : Z := Z.of_nat (size m).

(** The value returned by GetStats.  The source builds a
    [map[string]interface{}] with exactly these six keys; the record has
    one field per key, with the dynamic type the source stores under it. *)
Record Stats : Type := mkStats {
  total : Z;
  completed : Z;
  pending : Z;
  overdue : Z;
  by_priority : gmap Z Z;
  by_category : gmap string Z
}.

Definition incr_completed (st : Stats) : Stats :=
  mkStats (total st) (incr (completed st)) (pending st) (overdue st)
          (by_priority st) (by_category st).

Definition incr_pending (st : Stats) : Stats :=
  mkStats (total st) (completed st) (incr (pending st)) (overdue st)
          (by_priority st) (by_category st).

Definition incr_overdue (st : Stats) : Stats :=
  mkStats (total st) (completed st) (pending st) (incr (overdue st))
          (by_priority st) (by_category st).

Definition incr_by_priority (p : Z) (st : Stats) : Stats :=
  mkStats (total st) (completed st) (pending st) (overdue st)
          (map_incr p (by_priority st)) (by_category st).

Definition incr_by_category (c : string) (st : Stats) : Stats :=
  mkStats (total st) (completed st) (pending st) (overdue st)
          (by_priority st) (map_incr c (by_category st)).

(** One iteration of the loop of GetStats. *)
Definition stats_step (now : Time) (st : Stats) (todo : Todo) : Stats :=
  let st1 :=
    if Completed todo then incr_completed st
    else
      let st' := incr_pending st in
      if negb (IsZero (DueDate todo)) && Before (DueDate todo) now
      then incr_overdue st' else st' in
  let st2 := incr_by_priority (Priority todo) st1 in
  if negb (String.eqb (Category todo) "") then incr_by_category (Category todo) st2
  else st2.

(** The condition under which the loop of SearchTodos keeps [todo];
    [completed] is the [*bool] argument, [None] being [nil]. *)
Definition matches (query category : string) (completed : option bool)
  (todo : Todo) : bool :=
  let m := true in
  let m :=
    if negb (String.eqb query "")
    then m && (Contains (Title todo) query || Contains (Description todo) query)
    else m in
  let m :=
    if negb (String.eqb category "")
    then m && String.eqb (Category todo) category
    else m in
  match completed with
  | Some c => m && Bool.eqb (Completed todo) c
  | None => m
  end.

(** The [less] closure GetAllTodos passes to [sort.Slice]. *)
Definition less_created (a b : Todo) : bool :=
  After (CreatedAt a) (CreatedAt b).

(** The [less] closure SearchTodos passes to [sort.Slice]. *)
Definition less_priority (a b : Todo) : bool :=
  if negb (Priority a =? Priority b) then Priority b <? Priority a
  else After (CreatedAt a) (CreatedAt b).

(** The calls of the TodoStore interface and what each returns. *)
Inductive call : Type :=
  | CallGetAllTodos
  | CallGetTodoByID (id : Z)
  | CallCreateTodo (req : TodoRequest)
  | CallUpdateTodo (id : Z) (req : TodoRequest)
  | CallDeleteTodo (id : Z)
  | CallSearchTodos (query category : string) (completed : option bool)
  | CallGetStats.

Inductive ret : Type :=
  | RetTodos (r : result error (list Todo))
  | RetTodo (r : result error Todo)
  | RetError (r : option error)
  | RetStats (r : result error Stats).

Section Operations.

(** The order in which [for _, todo := range s.todos] visits the map. *)
Variable range_map : gmap Z Todo → list (Z * Todo).

(** [sort.Slice], applied to a slice of todos. *)
Variable sort_Slice : (Todo → Todo → bool) → list Todo → list Todo.

Definition GetAllTodos (s : MemoryStore) : result error (list Todo) :=
  let todos := (range_map (todos s)).*2 in
  Ok (sort_Slice less_created todos).

Definition SearchTodos (s : MemoryStore) (query category : string)
  (completed : option bool) : result error (list Todo) :=
  let results := List.filter (matches query category completed)
                             (range_map (todos s)).*2 in
  Ok (sort_Slice less_priority results).

Definition GetStats (now : Time) (s : MemoryStore) : result error Stats :=
  let stats := mkStats (len (todos s)) 0 0 0 ∅ ∅ in
  Ok (foldl (stats_step now) stats (range_map (todos s)).*2).

(** One call on the store, made when the clock reads [now]. *)
Definition exec (now : Time) (c : call) (s : MemoryStore) : MemoryStore * ret :=
  match c with
  | CallGetAllTodos => (s, RetTodos (GetAllTodos s))
  | CallGetTodoByID id => (s, RetTodo (GetTodoByID s id))
  | CallCreateTodo req => let '(s', r) := CreateTodo now s req in (s', RetTodo r)
  | CallUpdateTodo id req =>
      let '(s', r) := UpdateTodo now s id req in (s', RetTodo r)
  | CallDeleteTodo id => let '(s', r) := DeleteTodo s id in (s', RetError r)
  | CallSearchTodos q cat comp => (s, RetTodos (SearchTodos s q cat comp))
  | CallGetStats => (s, RetStats (GetStats now s))
  end.

(** A sequence of calls, each with the clock reading at which it is made:
    the final store and, in order, every call with what it returned. *)
Fixpoint run (cs : list (Time * call)) (s : MemoryStore)
  : MemoryStore * list (call * ret) :=
  match cs with
  | [] => (s, [])
  | (now, c) :: cs' =>
      let '(s1, r) := exec now c s in
      let '(s2, tr) := run cs' s1 in
      (s2, (c, r) :: tr)
  end.

End Operations.

(** The ids handed out by the CreateTodo calls of a trace, in order. *)
Fixpoint created_ids (tr : list (call * ret)) : list Z :=
  match tr with
  | [] => []
  | (CallCreateTodo _, RetTodo (Ok todo)) :: tr' => ID todo :: created_ids tr'
  | _ :: tr' => created_ids tr'
  end.

(** ** A reference instance of the two runtime parameters

    [insertion_sort] is the insertion sort [sort.Slice] runs on slices of at
    most 12 elements: each element in turn moves left while it is [less]
    than its left neighbour. *)

(** [insert_left less x rev_sorted]: [rev_sorted] is the sorted prefix, last
    element first. *)
Fixpoint insert_left (less : Todo → Todo → bool) (x : Todo)
  (rev_sorted : list Todo) : list Todo :=
  match rev_sorted with
  | [] => [x]
  | y :: rest =>
      if less x y then y :: insert_left less x rest else x :: y :: rest
  end.

Definition insertion_sort (less : Todo → Todo → bool) (l : list Todo)
  : list Todo :=
  rev (foldl (λ acc x, insert_left less x acc) [] l).

Definition range_ascending (m : gmap Z Todo) : list (Z * Todo) :=
  map_to_list m.

Definition is_create (c : call) : bool :=
  match c with
  | CallCreateTodo _ => true
  | _ => false
  end.

(* ===================================================================== *)
(** * Concurrent callers *)
(* ===================================================================== *)

(** Goroutines call the store concurrently.  An execution is an
    interleaving of the steps below; every operation starts by taking
    [s.mu] and releases it by its deferred unlock when it returns.
    CreateTodo is cut into the four statements that follow [s.mu.Lock()],
    so that another goroutine could run between any two of them if the
    lock let it. *)

(** [sync.RWMutex]: whether the write lock is held, and how many read locks
    are held.  [RLock] is granted when no writer holds the mutex, [Lock]
    when nobody holds it. *)
Record RWMutex : Type := mkRWMutex {
  writer : bool;
  readers : nat
}.

(** The lock an operation takes: [s.mu.Lock()] in CreateTodo, UpdateTodo
    and DeleteTodo, [s.mu.RLock()] in the four others. *)
Definition takes_Lock (c : call) : bool :=
  match c with
  | CallCreateTodo _ | CallUpdateTodo _ _ | CallDeleteTodo _ => true
  | CallGetAllTodos | CallGetTodoByID _ | CallSearchTodos _ _ _
  | CallGetStats => false
  end.

(** Where a goroutine stands. *)
Inductive position : Type :=
  | Outside
      (* not between a lock and its unlock *)
  | RLocked (c : call)
      (* after [s.mu.RLock()] *)
  | Locked (c : call)
      (* after [s.mu.Lock()] *)
  | TodoBuilt (req : TodoRequest) (todo : Todo)
      (* CreateTodo, after [todo := &models.Todo{ID: s.nextID, ...}] *)
  | TodoStored (req : TodoRequest) (todo : Todo)
      (* CreateTodo, after [s.todos[todo.ID] = todo] *)
  | CounterBumped (req : TodoRequest) (todo : Todo).
      (* CreateTodo, after [s.nextID++] *)

Definition is_reading (p : position) : bool :=
  match p with RLocked _ => true | _ => false end.

Definition is_writing (p : position) : bool :=
  match p with
  | Locked _ | TodoBuilt _ _ | TodoStored _ _ | CounterBumped _ _ => true
  | Outside | RLocked _ => false
  end.

Definition is_bumped (p : position) : bool :=
  match p with CounterBumped _ _ => true | _ => false end.

(** The store, its mutex, the goroutines, and the calls that have returned
    (goroutine, call, value returned), oldest first. *)
Record system : Type := mkSystem {
  store : MemoryStore;
  mu : RWMutex;
  goroutines : nat → position;
  returned : list (nat * call * ret)
}.

Definition initial (now : Time) : system :=
  {| store := NewMemoryStore now;
     mu := mkRWMutex false 0;
     goroutines := λ _, Outside;
     returned := [] |}.

Section Interleaving.

Variable range_map : gmap Z Todo → list (Z * Todo).
Variable sort_Slice : (Todo → Todo → bool) → list Todo → list Todo.

Inductive step : system → system → Prop :=
  | step_RLock σ g c :
      (* [s.mu.RLock()] returns *)
      goroutines σ g = Outside →
      takes_Lock c = false →
      writer (mu σ) = false →
      step σ {| store := store σ;
                mu := mkRWMutex false (S (readers (mu σ)));
                goroutines := <[g := RLocked c]> (goroutines σ);
                returned := returned σ |}
  | step_read_return σ g c now :
      (* the body of a read, then the deferred [s.mu.RUnlock()] *)
      goroutines σ g = RLocked c →
      step σ {| store := store σ;
                mu := mkRWMutex (writer (mu σ)) (pred (readers (mu σ)));
                goroutines := <[g := Outside]> (goroutines σ);
                returned := returned σ ++
                  [(g, c, (exec range_map sort_Slice now c (store σ)).2)] |}
  | step_Lock σ g c :
      (* [s.mu.Lock()] returns *)
      goroutines σ g = Outside →
      takes_Lock c = true →
      writer (mu σ) = false →
      readers (mu σ) = 0%nat →
      step σ {| store := store σ;
                mu := mkRWMutex true (readers (mu σ));
                goroutines := <[g := Locked c]> (goroutines σ);
                returned := returned σ |}
  | step_write_return σ g c now :
      (* the body of UpdateTodo or DeleteTodo, then the deferred
         [s.mu.Unlock()] *)
      goroutines σ g = Locked c →
      is_create c = false →
      step σ {| store := (exec range_map sort_Slice now c (store σ)).1;
                mu := mkRWMutex false (readers (mu σ));
                goroutines := <[g := Outside]> (goroutines σ);
                returned := returned σ ++
                  [(g, c, (exec range_map sort_Slice now c (store σ)).2)] |}
  | step_build σ g req now :
      (* [now := time.Now()] and [todo := &models.Todo{...}] *)
      goroutines σ g = Locked (CallCreateTodo req) →
      step σ {| store := store σ;
                mu := mu σ;
                goroutines :=
                  <[g := TodoBuilt req
                           {| ID := nextID (store σ);
                              Title := req_Title req;
                              Description := req_Description req;
                              Completed := req_Completed req;
                              Priority := req_Priority req;
                              Category := req_Category req;
                              DueDate := req_DueDate req;
                              CreatedAt := now;
                              UpdatedAt := now |}]> (goroutines σ);
                returned := returned σ |}
  | step_store σ g req todo :
      (* [s.todos[todo.ID] = todo] *)
      goroutines σ g = TodoBuilt req todo →
      step σ {| store := {| todos := <[ID todo := todo]> (todos (store σ));
                            nextID := nextID (store σ) |};
                mu := mu σ;
                goroutines := <[g := TodoStored req todo]> (goroutines σ);
                returned := returned σ |}
  | step_bump σ g req todo :
      (* [s.nextID++] *)
      goroutines σ g = TodoStored req todo →
      step σ {| store := {| todos := todos (store σ);
                            nextID := incr (nextID (store σ)) |};
                mu := mu σ;
                goroutines := <[g := CounterBumped req todo]> (goroutines σ);
                returned := returned σ |}
  | step_create_return σ g req todo :
      (* [return todo, nil], then the deferred [s.mu.Unlock()] *)
      goroutines σ g = CounterBumped req todo →
      step σ {| store := store σ;
                mu := mkRWMutex false (readers (mu σ));
                goroutines := <[g := Outside]> (goroutines σ);
                returned := returned σ ++
                  [(g, CallCreateTodo req, RetTodo (Ok todo))] |}.

(** [steps n σ σ']: [σ'] is reached from [σ] in [n] steps. *)
Inductive steps : nat → system → system → Prop :=
  | steps_O σ : steps 0 σ σ
  | steps_S n σ σ1 σ2 : steps n σ σ1 → step σ1 σ2 → steps (S n) σ σ2.

End Interleaving.

(** The ids returned by the CreateTodo calls that have returned, in the
    order of their return. *)
Definition returned_ids (σ : system) : list Z :=
  created_ids ((λ e, (e.1.2, e.2)) <$> returned σ).

(* ===================================================================== *)
(** * Package api *)
(* ===================================================================== *)

(** The JSON handlers of [internal/api].  A handler receives what the
    router and the request give it (the path variable [id], the request
    body) and answers through [sendJSON] or [sendError]: the model returns
    the store after the call and the status code and data passed to
    [sendJSON].  [strconv.Atoi] and the JSON decoder are parameters;
    [None] stands for their non-nil error.  [clock i] is the i-th reading
    of [time.Now()] made while the handler runs. *)

Definition StatusOK : Z := 200.
Definition StatusCreated : Z := 201.
Definition StatusBadRequest : Z := 400.
Definition StatusNotFound : Z := 404.
Definition StatusInternalServerError : Z := 500.

(** The [data] argument of [sendJSON]: a todo response, a slice of them, or
    a [map[string]string]. *)
Inductive json_data : Type :=
  | DataTodo (r : TodoResponse)
  | DataTodos (rs : list TodoResponse)
  | DataMap (fields : list (string * string)).

Record response : Type := mkResponse {
  statusCode : Z;
  data : json_data
}.

Definition sendJSON (data : json_data) (statusCode : Z) : response :=
  {| statusCode := statusCode; data := data |}.

Definition sendError (message : string) (statusCode : Z) : response :=
  sendJSON (DataMap [("error", message)]) statusCode.

(** The API routes registered by SetupRoutes on the todo collection, with
    the path variable and the body of the request. *)
Inductive api_request : Type :=
  | GET_todos
  | POST_todos (body : string)
  | GET_todo (id_var : string)
  | PUT_todo (id_var : string) (body : string)
  | DELETE_todo (id_var : string)
  | PATCH_todo_complete (id_var : string).

Section Handlers.

Variable range_map : gmap Z Todo → list (Z * Todo).
Variable sort_Slice : (Todo → Todo → bool) → list Todo → list Todo.

(** [strconv.Atoi]. *)
Variable Atoi : string → option Z.

(** [json.NewDecoder(r.Body).Decode(&req)] on a zero [TodoRequest]. *)
Variable Decode : string → option TodoRequest.

Definition Handler_GetTodos (clock : nat → Time) (s : MemoryStore)
  : MemoryStore * response :=
  match GetAllTodos range_map sort_Slice s with
  | Err _ => (s, sendError "获取失败" StatusInternalServerError)
  | Ok todos =>
      let responses := imap (λ i todo, ToResponse (clock i) todo) todos in
      (s, sendJSON (DataTodos responses) StatusOK)
  end.

Definition Handler_GetTodo (clock : nat → Time) (id_var : string)
  (s : MemoryStore) : MemoryStore * response :=
  match Atoi id_var with
  | None => (s, sendError "无效ID" StatusBadRequest)
  | Some id =>
      match GetTodoByID s id with
      | Err _ => (s, sendError "未找到" StatusNotFound)
      | Ok todo => (s, sendJSON (DataTodo (ToResponse (clock 0%nat) todo)) StatusOK)
      end
  end.

Definition Handler_CreateTodo (clock : nat → Time) (body : string)
  (s : MemoryStore) : MemoryStore * response :=
  match Decode body with
  | None => (s, sendError "无效数据" StatusBadRequest)
  | Some req =>
      if String.eqb (req_Title req) ""
      then (s, sendError "标题必填" StatusBadRequest)
      else
        match CreateTodo (clock 0%nat) s req with
        | (s', Err _) => (s', sendError "创建失败" StatusInternalServerError)
        | (s', Ok todo) =>
            (s', sendJSON (DataTodo (ToResponse (clock 1%nat) todo))
                          StatusCreated)
        end
  end.

Definition Handler_UpdateTodo (clock : nat → Time) (id_var body : string)
  (s : MemoryStore) : MemoryStore * response :=
  match Atoi id_var with
  | None => (s, sendError "无效ID" StatusBadRequest)
  | Some id =>
      match Decode body with
      | None => (s, sendError "无效数据" StatusBadRequest)
      | Some req =>
          if String.eqb (req_Title req) ""
          then (s, sendError "标题必填" StatusBadRequest)
          else
            match UpdateTodo (clock 0%nat) s id req with
            | (s', Err _) => (s', sendError "更新失败" StatusNotFound)
            | (s', Ok todo) =>
                (s', sendJSON (DataTodo (ToResponse (clock 1%nat) todo))
                              StatusOK)
            end
      end
  end.

Definition Handler_DeleteTodo (id_var : string) (s : MemoryStore)
  : MemoryStore * response :=
  match Atoi id_var with
  | None => (s, sendError "无效ID" StatusBadRequest)
  | Some id =>
      match DeleteTodo s id with
      | (s', Some _) => (s', sendError "删除失败" StatusNotFound)
      | (s', None) =>
          (s', sendJSON (DataMap [("message", "删除成功")]) StatusOK)
      end
  end.

Definition Handler_CompleteTodo (clock : nat → Time) (id_var : string)
  (s : MemoryStore) : MemoryStore * response :=
  match Atoi id_var with
  | None => (s, sendError "无效ID" StatusBadRequest)
  | Some id =>
      match GetTodoByID s id with
      | Err _ => (s, sendError "未找到" StatusNotFound)
      | Ok todo =>
          let req := {| req_Title := Title todo;
                        req_Description := Description todo;
                        req_Completed := true;
                        req_Priority := Priority todo;
                        req_Category := Category todo;
                        req_DueDate := DueDate todo |} in
          match UpdateTodo (clock 0%nat) s id req with
          | (s', Err _) =>
              (s', sendError "更新失败" StatusInternalServerError)
          | (s', Ok updatedTodo) =>
              (s', sendJSON (DataTodo (ToResponse (clock 1%nat) updatedTodo))
                            StatusOK)
          end
      end
  end.

(** The handler SetupRoutes binds to each route. *)
Definition serve (clock : nat → Time) (r : api_request) (s : MemoryStore)
  : MemoryStore * response :=
  match r with
  | GET_todos => Handler_GetTodos clock s
  | POST_todos body => Handler_CreateTodo clock body s
  | GET_todo id_var => Handler_GetTodo clock id_var s
  | PUT_todo id_var body => Handler_UpdateTodo clock id_var body s
  | DELETE_todo id_var => Handler_DeleteTodo id_var s
  | PATCH_todo_complete id_var => Handler_CompleteTodo clock id_var s
  end.

(** Requests served one after the other: the final store and the
    responses, in order. *)
Fixpoint serve_all (rs : list ((nat → Time) * api_request)) (s : MemoryStore)
  : MemoryStore * list response :=
  match rs with
  | [] => (s, [])
  | (clock, r) :: rs' =>
      let '(s1, resp) := serve clock r s in
      let '(s2, resps) := serve_all rs' s1 in
      (s2, resp :: resps)
  end.

End Handlers.

(* ===================================================================== *)
(** * Vocabulary of the properties *)
(* ===================================================================== *)

(** [sub] occurs in [s] as a contiguous run of bytes. *)
Definition substring_of (sub s : string) : Prop :=
  ∃ before after : string, s = (before ++ sub ++ after)%string.

(** What the documentation of package [sort] asks of a [less] function. *)
Definition strict_weak_order (less : Todo → Todo → bool) : Prop :=
  (∀ a, less a a = false) ∧
  (∀ a b c, less a b = true → less b c = true → less a c = true) ∧
  (∀ a b c, less a b = false → less b c = false → less a c = false).

(** No element is [less] than one that comes before it. *)
Definition sorted_by (less : Todo → Todo → bool) (l : list Todo) : Prop :=
  StronglySorted (λ a b, less b a = false) l.

(** Every stored todo carries its key as [ID], and every key is below the
    counter. *)
Definition store_ok (s : MemoryStore) : Prop :=
  ∀ id todo, todos s !! id = Some todo → ID todo = id ∧ id < nextID s.

(** No timestamp of the store is after the clock reading [clk], and no todo
    was refreshed before it was created. *)
Definition times_ok (clk : Time) (s : MemoryStore) : Prop :=
  ∀ id todo, todos s !! id = Some todo →
    CreatedAt todo ≤ UpdatedAt todo ∧ UpdatedAt todo ≤ clk.

(** The clock readings of a sequence of calls never go back. *)
Fixpoint clock_monotone (clk : Time) (cs : list (Time * call)) : Prop :=
  match cs with
  | [] => True
  | (now, _) :: cs' => clk ≤ now ∧ clock_monotone now cs'
  end.

(** The last clock reading of a sequence of calls made after [clk]. *)
Fixpoint last_clock (clk : Time) (cs : list (Time * call)) : Time :=
  match cs with
  | [] => clk
  | (now, _) :: cs' => last_clock now cs'
  end.

(** The stored todos, one for each key of the map. *)
Definition stored (s : MemoryStore) : list Todo := (map_to_list (todos s)).*2.

(** How many elements of [l] satisfy [P]. *)
Definition count_if (P : Todo → bool) (l : list Todo) : Z :=
  Z.of_nat (length (List.filter P l)).

(** [a] may come before [b] in the result of GetAllTodos: it was not
    created earlier. *)
Definition created_desc (a b : Todo) : Prop := CreatedAt b ≤ CreatedAt a.

(** [a] may come before [b] in the result of SearchTodos: its priority is
    higher, or the priorities are equal and it was not created earlier. *)
Definition priority_desc_then_created_desc (a b : Todo) : Prop :=
  Priority b < Priority a ∨
  (Priority a = Priority b ∧ CreatedAt b ≤ CreatedAt a).

(** The criteria of a search, as the specification words them. *)
Definition satisfies (query category : string) (completed : option bool)
  (todo : Todo) : Prop :=
  (query = "" ∨ substring_of query (Title todo)
              ∨ substring_of query (Description todo)) ∧
  (category = "" ∨ Category todo = category) ∧
  (completed = None ∨ completed = Some (Completed todo)).

(** The sum of the counts of a breakdown ([by_priority], [by_category]). *)
Definition map_sum `{Countable K} (m : gmap K Z) : Z :=
  map_fold (λ _ v acc, v + acc) 0 m.

(** The number of CreateTodo calls in a sequence of calls. *)
Fixpoint count_creates (cs : list (Time * call)) : Z :=
  match cs with
  | [] => 0
  | (_, c) :: cs' => (if is_create c then 1 else 0) + count_creates cs'
  end.

(** What holds of a system reached from [initial] in [n] steps.  The
    mutex counts its readers; the set [R] names them. *)
Record invariant (n : nat) (σ : system) : Prop := mkInvariant {
  inv_readers :
    ∃ R : gset nat,
      readers (mu σ) = size R ∧
      ∀ g, g ∈ R ↔ is_reading (goroutines σ g) = true;
  inv_writer :
    writer (mu σ) = true ↔ ∃ g, is_writing (goroutines σ g) = true;
  inv_one_writer :
    ∀ g g', is_writing (goroutines σ g) = true →
            is_writing (goroutines σ g') = true → g = g';
  inv_no_reader : writer (mu σ) = true → readers (mu σ) = 0%nat;
  inv_rlocked :
    ∀ g c, goroutines σ g = RLocked c → takes_Lock c = false;
  inv_counter : 4 ≤ nextID (store σ) ≤ 4 + Z.of_nat n;
  inv_built :
    ∀ g req todo, goroutines σ g = TodoBuilt req todo →
                  ID todo = nextID (store σ);
  inv_stored :
    ∀ g req todo, goroutines σ g = TodoStored req todo →
                  ID todo = nextID (store σ);
  inv_bumped :
    ∀ g req todo, goroutines σ g = CounterBumped req todo →
                  ID todo + 1 = nextID (store σ) ∧
                  Forall (λ id, id < ID todo) (returned_ids σ);
  inv_sorted : StronglySorted Z.lt (returned_ids σ);
  inv_below : Forall (λ id, id < nextID (store σ)) (returned_ids σ);
  inv_account_bumped :
    ∀ g, is_bumped (goroutines σ g) = true →
         nextID (store σ) = 4 + Z.of_nat (length (returned_ids σ)) + 1;
  inv_account :
    (∀ g, is_bumped (goroutines σ g) = false) →
    nextID (store σ) = 4 + Z.of_nat (length (returned_ids σ))
}.

(* ===================================================================== *)
(** * Integers and strings *)
(* ===================================================================== *)

Lemma wrap_int_id (z : Z) : int_min ≤ z ≤ int_max → wrap_int z = z.
Proof.
  unfold wrap_int, int_min, int_max. intros Hz.
  rewrite Z.mod_small; lia.
Qed.

Lemma incr_no_overflow (x : Z) : int_min ≤ x < int_max → incr x = x + 1.
Proof. intros Hx. unfold incr. apply wrap_int_id. lia. Qed.

Lemma incr_overflow : incr int_max = int_min.
Proof. reflexivity. Qed.

Lemma HasPrefix_spec (s p : string) :
  HasPrefix s p = true ↔ ∃ rest : string, s = (p ++ rest)%string.
Proof.
  revert s. induction p as [|c p IH]; intros s; simpl.
  - split; [intros _; by exists s | done].
  - destruct s as [|d s]; simpl.
    + split; [intros ?; discriminate | intros [rest Hrest]; discriminate].
    + rewrite andb_true_iff, Ascii.eqb_eq, IH. split.
      * intros [-> [rest ->]]. by exists rest.
      * intros [rest Hrest]. injection Hrest as -> ->. eauto.
Qed.

Lemma Contains_spec (s sub : string) :
  Contains s sub = true ↔ substring_of sub s.
Proof.
  unfold substring_of. induction s as [|d s IH]; simpl.
  - rewrite orb_false_r, HasPrefix_spec. split.
    + intros [rest Hrest]. by exists EmptyString, rest.
    + intros [[|b before] [after Hs]]; simpl in Hs; [eauto | discriminate].
  - rewrite orb_true_iff, HasPrefix_spec, IH. split.
    + intros [[rest Hrest] | (before & after & ->)].
      * by exists EmptyString, rest.
      * by exists (String d before), after.
    + intros [[|b before] [after Hs]]; simpl in Hs.
      * left. eauto.
      * injection Hs as -> ->. right. eauto.
Qed.

(* ===================================================================== *)
(** * The response representation *)
(* ===================================================================== *)

Lemma isOverdue_spec (now : Time) (t : Todo) :
  isOverdue now t = true ↔
  Completed t = false ∧ DueDate t ≠ 0 ∧ DueDate t < now.
Proof.
  unfold isOverdue, IsZero, Before.
  rewrite !andb_true_iff, !negb_true_iff, Z.eqb_neq, Z.ltb_lt. tauto.
Qed.

(** C8, as the specification words it, fails: the status of a completed
    todo is not the string "completed". *)
Lemma ToResponse_status_counterexample :
  let t := mkTodo 1 "Buy milk" "" true 1 "" 0 0 0 in
  Completed t = true ∧ resp_Status (ToResponse 0 t) ≠ "completed".
Proof. split; [reflexivity | discriminate]. Qed.

(** C8 (amended): the response repeats the nine stored fields and adds two
    derived ones.  [is_overdue] is true iff the todo is not completed, its
    due date is set (non-zero) and its due date is before the current time.
    [status] is "已完成" (completed) when the todo is completed, "已过期"
    (overdue) when [is_overdue] holds, and "进行中" (in progress)
    otherwise. *)
Theorem ToResponse_derived_fields (now : Time) (t : Todo) :
  let r := ToResponse now t in
  (resp_IsOverdue r = true ↔
     Completed t = false ∧ DueDate t ≠ 0 ∧ DueDate t < now) ∧
  resp_Status r =
    (if Completed t then "已完成"
     else if resp_IsOverdue r then "已过期"
     else "进行中") ∧
  resp_Status r ∈ ["进行中"; "已完成"; "已过期"] ∧
  (resp_ID r, resp_Title r, resp_Description r, resp_Completed r,
   resp_Priority r, resp_Category r, resp_DueDate r, resp_CreatedAt r,
   resp_UpdatedAt r)
  = (ID t, Title t, Description t, Completed t, Priority t, Category t,
     DueDate t, CreatedAt t, UpdatedAt t).
Proof.
  simpl. split; [apply isOverdue_spec |]. split; [reflexivity |].
  split; [| reflexivity].
  destruct (Completed t); [set_solver |].
  destruct (isOverdue now t); set_solver.
Qed.

(* ===================================================================== *)
(** * Single operations *)
(* ===================================================================== *)

Lemma store_ok_NewMemoryStore (now : Time) : store_ok (NewMemoryStore now).
Proof.
  intros id todo. unfold NewMemoryStore, Seed. simpl.
  rewrite !lookup_insert_Some, lookup_empty.
  intros [[<- <-] | [_ [[<- <-] | [_ [[<- <-] | [_ ?]]]]]]; simpl; done.
Qed.

Lemma times_ok_NewMemoryStore (now : Time) : times_ok now (NewMemoryStore now).
Proof.
  intros id todo. unfold NewMemoryStore, Seed. simpl.
  rewrite !lookup_insert_Some, lookup_empty.
  intros [[<- <-] | [_ [[<- <-] | [_ [[<- <-] | [_ ?]]]]]];
    simpl; unfold Add, Hour; try lia; done.
Qed.

Lemma times_ok_later (clk clk' : Time) (s : MemoryStore) :
  clk ≤ clk' → times_ok clk s → times_ok clk' s.
Proof. intros Hle Hs id todo Hid. destruct (Hs id todo Hid). lia. Qed.

(** C4: each of GetTodoByID, UpdateTodo and DeleteTodo fails with
    ErrTodoNotFound iff no todo with that id is stored, and fails in no
    other way; a failed UpdateTodo or DeleteTodo returns the store as it
    was (GetTodoByID never changes it); after a DeleteTodo of an id, both
    GetTodoByID and a second DeleteTodo of that id fail with
    ErrTodoNotFound. *)
Theorem not_found_iff_absent (now : Time) (s : MemoryStore) (id : Z)
  (req : TodoRequest) :
  (GetTodoByID s id = Err ErrTodoNotFound ↔ todos s !! id = None) ∧
  ((UpdateTodo now s id req).2 = Err ErrTodoNotFound ↔ todos s !! id = None) ∧
  ((DeleteTodo s id).2 = Some ErrTodoNotFound ↔ todos s !! id = None) ∧
  (∀ e, GetTodoByID s id = Err e ∨ (UpdateTodo now s id req).2 = Err e ∨
        (DeleteTodo s id).2 = Some e → e = ErrTodoNotFound) ∧
  (todos s !! id = None →
     (UpdateTodo now s id req).1 = s ∧ (DeleteTodo s id).1 = s) ∧
  (is_Some (todos s !! id) →
     (DeleteTodo s id).2 = None ∧
     todos (DeleteTodo s id).1 = delete id (todos s)) ∧
  GetTodoByID (DeleteTodo s id).1 id = Err ErrTodoNotFound ∧
  DeleteTodo (DeleteTodo s id).1 id
    = ((DeleteTodo s id).1, Some ErrTodoNotFound).
Proof.
  unfold GetTodoByID, UpdateTodo, DeleteTodo.
  destruct (todos s !! id) as [todo|] eqn:Hid; simpl.
  - rewrite lookup_delete_eq.
    repeat split; try done; try (intros [? ?]; discriminate).
    all: intros e [He | [He | He]]; discriminate.
  - rewrite Hid.
    repeat split; try done; try (intros [? ?]; discriminate).
    all: intros e [He | [He | He]]; congruence.
Qed.

(** C3: for an id present in the store, whatever the clock reads,
    UpdateTodo succeeds and the stored record becomes the payload's six
    fields (title, description, completed, priority, category, due_date)
    with the old id and created_at, and updated_at set to the clock
    reading of the call: nothing of the old mutable fields remains, and no
    other record changes.  The new updated_at is ≥ the previous one when
    the clock has not gone back: when no timestamp of the store is after
    an earlier reading [clk] of the clock ([times_ok], which holds of a
    new store and which every call keeps, see [run_times_ok]) and
    [clk ≤ now]. *)
Theorem UpdateTodo_replaces (now : Time) (s : MemoryStore) (id : Z)
  (req : TodoRequest) (old : Todo) :
  todos s !! id = Some old →
  ∃ new s',
    UpdateTodo now s id req = (s', Ok new) ∧
    new = {| ID := ID old;
             Title := req_Title req;
             Description := req_Description req;
             Completed := req_Completed req;
             Priority := req_Priority req;
             Category := req_Category req;
             DueDate := req_DueDate req;
             CreatedAt := CreatedAt old;
             UpdatedAt := now |} ∧
    ID new = ID old ∧
    CreatedAt new = CreatedAt old ∧
    UpdatedAt new = now ∧
    todos s' !! id = Some new ∧
    GetTodoByID s' id = Ok new ∧
    (∀ id', id' ≠ id → todos s' !! id' = todos s !! id') ∧
    nextID s' = nextID s ∧
    (∀ clk, times_ok clk s → clk ≤ now →
            UpdatedAt old ≤ UpdatedAt new ∧ times_ok now s').
Proof.
  intros Hid. unfold UpdateTodo, GetTodoByID. rewrite Hid.
  eexists _, _. split; [reflexivity |]. simpl.
  rewrite lookup_insert_eq.
  split; [reflexivity |]. split; [reflexivity |]. split; [reflexivity |].
  split; [reflexivity |]. split; [reflexivity |]. split; [reflexivity |].
  split; [intros id' Hne; by rewrite lookup_insert_ne |].
  split; [reflexivity |].
  intros clk Htimes Hclk. destruct (Htimes id old Hid) as [Hcreated Hold].
  split; [lia |].
  intros id' todo. simpl. rewrite lookup_insert_Some.
  intros [[_ <-] | [_ Hid']]; simpl; [lia |].
  destruct (Htimes id' todo Hid'). lia.
Qed.

Lemma UpdateTodo_replaces_witness :
  let s := NewMemoryStore 1000 in
  let req := mkTodoRequest "Learn Rocq" "" true 5 "" 0 in
  let old := {| ID := 2;
                Title := "编写 HTTP 服务器";
                Description := "使用 Go 实现一个完整的 HTTP 服务器";
                Completed := true;
                Priority := 4;
                Category := "项目";
                DueDate := Add 1000 (-1 * 24 * Hour);
                CreatedAt := Add 1000 (-3 * 24 * Hour);
                UpdatedAt := Add 1000 (-1 * 24 * Hour) |} in
  ∃ new s', UpdateTodo 2000 s 2 req = (s', Ok new) ∧
            Title new = "Learn Rocq" ∧ UpdatedAt new = 2000 ∧
            ID new = ID old ∧ UpdatedAt old ≤ UpdatedAt new.
Proof.
  intros s req old.
  destruct (UpdateTodo_replaces 2000 s 2 req old)
    as (new & s' & Hupd & Hnew & Hid & _ & Hupdated & _ & _ & _ & _ & Hclock);
    [reflexivity |].
  destruct (Hclock 1000 (times_ok_NewMemoryStore 1000)) as [Hge _];
    [lia |].
  exists new, s'. split; [exact Hupd |].
  split; [by rewrite Hnew |]. split; [exact Hupdated |].
  split; [exact Hid | exact Hge].
Defined.

(** C2, as the specification words it, fails: the counter of a newly
    constructed store does not start at 1; the first CreateTodo returns
    id 4. *)
Lemma CreateTodo_first_id_counterexample :
  let s := NewMemoryStore 0 in
  let req := mkTodoRequest "Buy milk" "" false 0 "" 0 in
  ∃ todo, (CreateTodo 0 s req).2 = Ok todo ∧ ID todo = 4 ∧ ID todo ≠ 1.
Proof. eexists. split; [reflexivity |]. split; [reflexivity | discriminate]. Qed.

(** C2 (amended): on a store whose ids are all below its counter,
    CreateTodo gives the new record the current value of the counter, an
    id no stored todo has; the counter of a newly constructed store is 4,
    not 1.  The record has the request's fields and created_at =
    updated_at = the current time; it is stored under its id, the counter
    is incremented, and the record is returned without error.  Fetched by
    its id, the new todo is that record. *)
Theorem CreateTodo_spec (now : Time) (s : MemoryStore) (req : TodoRequest) :
  store_ok s →
  ∃ todo s',
    CreateTodo now s req = (s', Ok todo) ∧
    ID todo = nextID s ∧
    todos s !! ID todo = None ∧
    todo = {| ID := nextID s;
              Title := req_Title req;
              Description := req_Description req;
              Completed := req_Completed req;
              Priority := req_Priority req;
              Category := req_Category req;
              DueDate := req_DueDate req;
              CreatedAt := now;
              UpdatedAt := now |} ∧
    UpdatedAt todo = CreatedAt todo ∧
    todos s' = <[ID todo := todo]> (todos s) ∧
    nextID s' = incr (nextID s) ∧
    GetTodoByID s' (ID todo) = Ok todo ∧
    (∀ now0, nextID (NewMemoryStore now0) = 4).
Proof.
  intros Hok. unfold CreateTodo, GetTodoByID. simpl.
  eexists _, _. split; [reflexivity |]. simpl.
  rewrite lookup_insert_eq. repeat split; try done.
  destruct (todos s !! nextID s) as [t|] eqn:Ht; [| done].
  apply Hok in Ht as [_ Hlt]. lia.
Qed.

Lemma CreateTodo_spec_witness :
  let req := mkTodoRequest "Buy milk" "" false 0 "" 0 in
  ∃ todo s',
    CreateTodo 5 (NewMemoryStore 0) req = (s', Ok todo) ∧
    ID todo = 4 ∧ Title todo = "Buy milk" ∧ Completed todo = false ∧
    UpdatedAt todo = CreatedAt todo ∧
    GetTodoByID s' (ID todo) = Ok todo.
Proof.
  intros req.
  destruct (CreateTodo_spec 5 (NewMemoryStore 0) req
              (store_ok_NewMemoryStore 0))
    as (todo & s' & Hc & Hid & _ & -> & Hupd & _ & _ & Hget & _).
  eexists _, s'. split; [exact Hc |].
  repeat split; first [exact Hupd | exact Hget | reflexivity].
Defined.

Lemma CreateTodo_store_ok (now : Time) (s : MemoryStore) (req : TodoRequest) :
  store_ok s → int_min ≤ nextID s < int_max →
  store_ok (CreateTodo now s req).1.
Proof.
  intros Hok Hrange id todo. simpl.
  rewrite (incr_no_overflow _ Hrange), lookup_insert_Some.
  intros [[<- <-] | [_ Hid]]; simpl; [lia |].
  apply Hok in Hid. lia.
Qed.

Lemma UpdateTodo_store_ok (now : Time) (s : MemoryStore) (id : Z)
  (req : TodoRequest) :
  store_ok s → store_ok (UpdateTodo now s id req).1.
Proof.
  intros Hok. unfold UpdateTodo.
  destruct (todos s !! id) as [old|] eqn:Hold; [| exact Hok].
  intros id' todo. simpl. rewrite lookup_insert_Some.
  intros [[<- <-] | [_ Hid]]; [| by apply Hok].
  simpl. by apply Hok.
Qed.

Lemma DeleteTodo_store_ok (s : MemoryStore) (id : Z) :
  store_ok s → store_ok (DeleteTodo s id).1.
Proof.
  intros Hok. unfold DeleteTodo.
  destruct (todos s !! id) as [old|] eqn:Hold; [| exact Hok].
  intros id' todo. simpl. rewrite lookup_delete_Some.
  intros [_ Hid]. by apply Hok.
Qed.

Lemma CreateTodo_times_ok (clk now : Time) (s : MemoryStore)
  (req : TodoRequest) :
  clk ≤ now → times_ok clk s → times_ok now (CreateTodo now s req).1.
Proof.
  intros Hle Hs id todo. simpl. rewrite lookup_insert_Some.
  intros [[_ <-] | [_ Hid]]; simpl; [lia |].
  destruct (Hs id todo Hid). lia.
Qed.

Lemma UpdateTodo_times_ok (clk now : Time) (s : MemoryStore) (id : Z)
  (req : TodoRequest) :
  clk ≤ now → times_ok clk s → times_ok now (UpdateTodo now s id req).1.
Proof.
  intros Hle Hs. unfold UpdateTodo.
  destruct (todos s !! id) as [old|] eqn:Hold; [| by eapply times_ok_later].
  intros id' todo. simpl. rewrite lookup_insert_Some.
  intros [[_ <-] | [_ Hid]]; simpl.
  - destruct (Hs id old Hold). lia.
  - destruct (Hs id' todo Hid). lia.
Qed.

Lemma DeleteTodo_times_ok (clk : Time) (s : MemoryStore) (id : Z) :
  times_ok clk s → times_ok clk (DeleteTodo s id).1.
Proof.
  intros Hs. unfold DeleteTodo.
  destruct (todos s !! id) as [old|] eqn:Hold; [| exact Hs].
  intros id' todo. simpl. rewrite lookup_delete_Some.
  intros [_ Hid]. by apply (Hs id').
Qed.

(* ===================================================================== *)
(** * Sequences of calls *)
(* ===================================================================== *)

Lemma count_creates_nonneg (cs : list (Time * call)) : 0 ≤ count_creates cs.
Proof.
  induction cs as [|[now c] cs IH]; simpl; [lia |].
  destruct (is_create c); lia.
Qed.

Lemma created_ids_cons (c : call) (r : ret) (tr : list (call * ret)) :
  created_ids ((c, r) :: tr) = created_ids [(c, r)] ++ created_ids tr.
Proof.
  destruct c; try reflexivity.
  destruct r as [r|r|r|r]; try reflexivity.
  destruct r; reflexivity.
Qed.

Section Sequences.

Variable range_map : gmap Z Todo → list (Z * Todo).
Variable sort_Slice : (Todo → Todo → bool) → list Todo → list Todo.

Lemma run_cons (now : Time) (c : call) (cs : list (Time * call))
  (s : MemoryStore) :
  let s1 := (exec range_map sort_Slice now c s).1 in
  run range_map sort_Slice ((now, c) :: cs) s
  = ((run range_map sort_Slice cs s1).1,
     (c, (exec range_map sort_Slice now c s).2)
       :: (run range_map sort_Slice cs s1).2).
Proof.
  simpl. destruct (exec range_map sort_Slice now c s) as [s1 r]. simpl.
  by destruct (run range_map sort_Slice cs s1).
Qed.

(** What one call does to the counter and to the invariant [store_ok]. *)
Lemma exec_effect (now : Time) (c : call) (s : MemoryStore) :
  store_ok s →
  int_min ≤ nextID s →
  nextID s + (if is_create c then 1 else 0) ≤ int_max →
  let s1 := (exec range_map sort_Slice now c s).1 in
  let r := (exec range_map sort_Slice now c s).2 in
  store_ok s1 ∧
  nextID s1 = nextID s + (if is_create c then 1 else 0) ∧
  created_ids [(c, r)] = (if is_create c then [nextID s] else []) ∧
  (∀ id, c = CallDeleteTodo id → r = RetError None → id < nextID s).
Proof.
  intros Hok Hmin Hmax.
  destruct c as [|id|req|id req|id|q cat comp|]; simpl in *;
    try (split; [exact Hok | split; [lia | split; [reflexivity | done]]]).
  - split; [apply (CreateTodo_store_ok now s req Hok); lia |].
    rewrite incr_no_overflow by lia. done.
  - pose proof (UpdateTodo_store_ok now s id req Hok) as Hok'.
    unfold UpdateTodo in *.
    destruct (todos s !! id); simpl in *;
      (split; [exact Hok' | split; [lia | split; [reflexivity | done]]]).
  - pose proof (DeleteTodo_store_ok s id Hok) as Hok'.
    unfold DeleteTodo in *.
    destruct (todos s !! id) as [old|] eqn:Hold; simpl in *;
      (split; [exact Hok' | split; [lia | split; [reflexivity |]]]).
    + intros id' [= <-] _. by apply Hok in Hold as [_ ?].
    + discriminate.
Qed.

(** What a sequence of calls does: the invariant is kept, the counter
    advances by the number of CreateTodo calls, and the ids handed out
    start at the initial counter and increase. *)
Lemma run_effect (cs : list (Time * call)) (s : MemoryStore) :
  store_ok s →
  int_min ≤ nextID s →
  nextID s + count_creates cs ≤ int_max →
  let s' := (run range_map sort_Slice cs s).1 in
  let tr := (run range_map sort_Slice cs s).2 in
  store_ok s' ∧
  nextID s' = nextID s + count_creates cs ∧
  Forall (λ id, nextID s ≤ id) (created_ids tr) ∧
  StronglySorted Z.lt (created_ids tr).
Proof.
  revert s. induction cs as [|[now c] cs IH]; intros s Hok Hmin Hmax.
  - simpl. split; [exact Hok | split; [lia | split; constructor]].
  - pose proof (count_creates_nonneg cs) as Hnn.
    simpl in Hmax.
    destruct (exec_effect now c s Hok Hmin) as (Hok1 & Hnext1 & Hids1 & _);
      [destruct (is_create c); lia |].
    rewrite run_cons. cbv zeta. simpl fst. simpl snd.
    set (s1 := (exec range_map sort_Slice now c s).1) in *.
    destruct (IH s1 Hok1) as (Hok' & Hnext' & Hge & Hsorted);
      [destruct (is_create c); lia | destruct (is_create c); lia |].
    rewrite created_ids_cons, Hids1.
    split; [exact Hok' |].
    split; [simpl; destruct (is_create c); lia |].
    destruct (is_create c); simpl.
    + split.
      * constructor; [lia |].
        eapply Forall_impl; [exact Hge |]. simpl. intros; lia.
      * constructor; [exact Hsorted |].
        eapply Forall_impl; [exact Hge |]. simpl. intros; lia.
    + split; [| exact Hsorted].
      eapply Forall_impl; [exact Hge |]. simpl. intros; lia.
Qed.

(** C1: in every sequence of calls on a store whose ids are below its
    counter, as long as the counter stays in the range of [int]: the ids
    returned by the successive CreateTodo calls are strictly increasing,
    hence never repeated; none of them is an id the store held at the
    start; and an id removed by a successful DeleteTodo is not returned by
    any later CreateTodo. *)
Theorem created_ids_increasing (cs : list (Time * call)) (s : MemoryStore) :
  store_ok s →
  int_min ≤ nextID s →
  nextID s + count_creates cs ≤ int_max →
  let tr := (run range_map sort_Slice cs s).2 in
  StronglySorted Z.lt (created_ids tr) ∧
  NoDup (created_ids tr) ∧
  (∀ id, id ∈ created_ids tr → todos s !! id = None) ∧
  (∀ tr1 id tr2,
     tr = tr1 ++ (CallDeleteTodo id, RetError None) :: tr2 →
     id ∉ created_ids tr2).
Proof.
  intros Hok Hmin Hmax tr.
  destruct (run_effect cs s Hok Hmin Hmax) as (_ & _ & Hge & Hsorted).
  fold tr in Hge, Hsorted.
  split; [exact Hsorted |]. split; [| split].
  - clear Hge. induction Hsorted as [|id ids Hs IH Hlt]; constructor; [| exact IH].
    intros Hin. rewrite Forall_forall in Hlt. specialize (Hlt id Hin). lia.
  - intros id Hin. rewrite Forall_forall in Hge. specialize (Hge id Hin).
    destruct (todos s !! id) as [t|] eqn:Ht; [| done].
    apply Hok in Ht as [_ ?]. lia.
  - subst tr. clear Hge Hsorted. revert s Hok Hmin Hmax.
    induction cs as [|[now c] cs IH]; intros s Hok Hmin Hmax tr1 id tr2.
    + simpl. intros Heq. by destruct tr1.
    + pose proof (count_creates_nonneg cs) as Hnn.
      simpl in Hmax.
      destruct (exec_effect now c s Hok Hmin) as (Hok1 & Hnext1 & _ & Hdel);
        [destruct (is_create c); lia |].
      rewrite run_cons. cbv zeta. simpl snd.
      set (s1 := (exec range_map sort_Slice now c s).1) in *.
      assert (Hmin1 : int_min ≤ nextID s1)
        by (destruct (is_create c); lia).
      assert (Hmax1 : nextID s1 + count_creates cs ≤ int_max)
        by (destruct (is_create c); lia).
      destruct tr1 as [|x tr1]; simpl.
      * intros [= -> Hr <-].
        specialize (Hdel id eq_refl Hr). simpl in Hnext1.
        destruct (run_effect cs s1 Hok1 Hmin1 Hmax1) as (_ & _ & Hge & _).
        rewrite Forall_forall in Hge. intros Hin.
        specialize (Hge id Hin). lia.
      * intros [= _ Heq]. by eapply (IH s1).
Qed.

End Sequences.

Lemma created_ids_increasing_witness :
  let req := mkTodoRequest "Buy milk" "" false 1 "" 0 in
  let cs := [(10, CallCreateTodo req); (20, CallDeleteTodo 4);
             (30, CallCreateTodo req)] in
  let tr := (run range_ascending insertion_sort cs (NewMemoryStore 0)).2 in
  created_ids tr = [4; 5] ∧ StronglySorted Z.lt (created_ids tr) ∧
  NoDup (created_ids tr).
Proof.
  intros req cs tr. split; [reflexivity |].
  destruct (created_ids_increasing range_ascending insertion_sort cs
              (NewMemoryStore 0)) as (Hsorted & Hnodup & _);
    [apply store_ok_NewMemoryStore | vm_compute; discriminate
    | vm_compute; discriminate |].
  split; [exact Hsorted | exact Hnodup].
Defined.

(* ===================================================================== *)
(** * Listing and searching *)
(* ===================================================================== *)

Lemma elem_of_stored (s : MemoryStore) (todo : Todo) :
  todo ∈ stored s ↔ ∃ id, todos s !! id = Some todo.
Proof.
  unfold stored. rewrite list_elem_of_fmap. split.
  - intros [[id t] [-> Hin]]. exists id. by apply elem_of_map_to_list.
  - intros [id Hid]. exists (id, todo). split; [done |].
    by apply elem_of_map_to_list.
Qed.

Lemma length_stored (s : MemoryStore) : length (stored s) = size (todos s).
Proof. unfold stored. by rewrite length_fmap, length_map_to_list. Qed.

Lemma filter_Permutation (f : Todo → bool) (l l' : list Todo) :
  l ≡ₚ l' → List.filter f l ≡ₚ List.filter f l'.
Proof.
  induction 1 as [|x l l' _ IH|x y l|l l' l'' _ IH1 _ IH2]; simpl.
  - done.
  - destruct (f x); [by constructor | done].
  - destruct (f x), (f y); try done. by constructor.
  - by etrans.
Qed.

Lemma count_if_Permutation (P : Todo → bool) (l l' : list Todo) :
  l ≡ₚ l' → count_if P l = count_if P l'.
Proof.
  intros Hperm. unfold count_if.
  by rewrite (Permutation_length (filter_Permutation P l l' Hperm)).
Qed.

Lemma StronglySorted_weaken (R R' : Todo → Todo → Prop) (l : list Todo) :
  (∀ a b, R a b → R' a b) → StronglySorted R l → StronglySorted R' l.
Proof.
  intros HR. induction 1 as [|a l _ IH Hall]; constructor; [done |].
  eapply Forall_impl; [exact Hall | auto].
Qed.

Lemma less_created_strict_weak_order : strict_weak_order less_created.
Proof.
  unfold strict_weak_order, less_created, After.
  repeat split; intros *; rewrite ?Z.ltb_lt, ?Z.ltb_ge; lia.
Qed.

Lemma less_priority_strict_weak_order : strict_weak_order less_priority.
Proof.
  unfold strict_weak_order, less_priority, After.
  repeat split; intros *;
    repeat match goal with
           | |- context [?x =? ?y] => destruct (Z.eqb_spec x y); simpl
           end;
    rewrite ?Z.ltb_lt, ?Z.ltb_ge; lia.
Qed.

Lemma less_created_false (a b : Todo) :
  less_created b a = false → created_desc a b.
Proof. unfold less_created, After, created_desc. rewrite Z.ltb_ge. lia. Qed.

Lemma less_priority_false (a b : Todo) :
  less_priority b a = false → priority_desc_then_created_desc a b.
Proof.
  unfold less_priority, After, priority_desc_then_created_desc.
  destruct (Z.eqb_spec (Priority b) (Priority a)); simpl;
    rewrite Z.ltb_ge; lia.
Qed.

Lemma matches_spec (query category : string) (completed : option bool)
  (todo : Todo) :
  matches query category completed todo = true ↔
  satisfies query category completed todo.
Proof.
  unfold matches, satisfies.
  assert (Hq : (if negb (String.eqb query "")
                then true && (Contains (Title todo) query
                              || Contains (Description todo) query)
                else true) = true
               ↔ query = "" ∨ substring_of query (Title todo)
                 ∨ substring_of query (Description todo)).
  { destruct (String.eqb_spec query ""); simpl.
    - split; [by left | done].
    - rewrite orb_true_iff, !Contains_spec. tauto. }
  destruct (if negb (String.eqb query "") then _ else true); simpl.
  - assert (Hc : (if negb (String.eqb category "")
                  then String.eqb (Category todo) category else true) = true
                 ↔ category = "" ∨ Category todo = category).
    { destruct (String.eqb_spec category ""); simpl.
      - split; [by left | done].
      - rewrite String.eqb_eq. tauto. }
    destruct (if negb (String.eqb category "") then _ else true).
    + destruct completed as [c|]; simpl.
      * rewrite Bool.eqb_true_iff. split.
        -- intros ->. split; [by apply Hq |]. split; [by apply Hc | by right].
        -- intros (_ & _ & [? | [= ->]]); done.
      * split; [| done]. intros _.
        split; [by apply Hq |]. split; [by apply Hc | by left].
    + assert (Hnc : ¬ (category = "" ∨ Category todo = category))
        by (rewrite <- Hc; discriminate).
      destruct completed as [c|]; simpl; split; try discriminate; tauto.
  - assert (Hnq : ¬ (query = "" ∨ substring_of query (Title todo)
                     ∨ substring_of query (Description todo)))
      by (rewrite <- Hq; discriminate).
    destruct (negb (String.eqb category "")), completed as [c|]; simpl;
      split; try discriminate; tauto.
Qed.

Section Reads.

Variable range_map : gmap Z Todo → list (Z * Todo).
Variable sort_Slice : (Todo → Todo → bool) → list Todo → list Todo.

(** [range] visits every entry of the map once, in some order. *)
Hypothesis range_map_visits : ∀ m, range_map m ≡ₚ map_to_list m.

(** [sort.Slice] permutes the slice and, when [less] is a strict weak
    order, leaves it sorted. *)
Hypothesis sort_Slice_permutes : ∀ less l, sort_Slice less l ≡ₚ l.
Hypothesis sort_Slice_sorts :
  ∀ less l, strict_weak_order less → sorted_by less (sort_Slice less l).

Lemma range_values (s : MemoryStore) : (range_map (todos s)).*2 ≡ₚ stored s.
Proof. unfold stored. by rewrite range_map_visits. Qed.

(** C6: GetAllTodos never fails; what it returns is a rearrangement of the
    stored todos, each of them once, in which no todo comes after one that
    was created earlier (created_at descending). *)
Theorem GetAllTodos_spec (s : MemoryStore) :
  ∃ l,
    GetAllTodos range_map sort_Slice s = Ok l ∧
    l ≡ₚ stored s ∧
    (∀ todo, todo ∈ l ↔ ∃ id, todos s !! id = Some todo) ∧
    length l = size (todos s) ∧
    StronglySorted created_desc l.
Proof.
  eexists. split; [reflexivity |].
  assert (Hperm : sort_Slice less_created (range_map (todos s)).*2 ≡ₚ stored s)
    by (rewrite sort_Slice_permutes; apply range_values).
  split; [exact Hperm |]. split; [| split].
  - intros todo. rewrite Hperm. apply elem_of_stored.
  - rewrite Hperm. apply length_stored.
  - eapply StronglySorted_weaken; [apply less_created_false |].
    apply sort_Slice_sorts, less_created_strict_weak_order.
Qed.

(** C5: SearchTodos never fails; what it returns is a rearrangement of the
    stored todos that satisfy every supplied criterion, each of them once:
    a non-empty query occurs, byte for byte, in the title or in the
    description; a non-empty category equals the todo's category; a
    non-nil completed filter equals the todo's completed flag.  In the
    result, priorities descend and, among equal priorities, created_at
    descends. *)
Theorem SearchTodos_spec (s : MemoryStore) (query category : string)
  (completed : option bool) :
  ∃ l,
    SearchTodos range_map sort_Slice s query category completed = Ok l ∧
    l ≡ₚ List.filter (matches query category completed) (stored s) ∧
    (∀ todo, todo ∈ l ↔
       (∃ id, todos s !! id = Some todo) ∧
       satisfies query category completed todo) ∧
    StronglySorted priority_desc_then_created_desc l.
Proof.
  eexists. split; [reflexivity |].
  set (f := matches query category completed).
  assert (Hperm : sort_Slice less_priority
                    (List.filter f (range_map (todos s)).*2)
                  ≡ₚ List.filter f (stored s)).
  { rewrite sort_Slice_permutes. apply filter_Permutation, range_values. }
  split; [exact Hperm |]. split.
  - intros todo. rewrite Hperm, list_elem_of_In, filter_In, <- list_elem_of_In.
    unfold f. by rewrite elem_of_stored, matches_spec.
  - eapply StronglySorted_weaken; [apply less_priority_false |].
    apply sort_Slice_sorts, less_priority_strict_weak_order.
Qed.

(** C10: a newly constructed store holds exactly three todos, under the
    ids 1, 2 and 3, and its counter is 4: GetAllTodos returns three
    records, and the first CreateTodo returns id 4, not id 1. *)
Theorem NewMemoryStore_seeded (now : Time) :
  let s := NewMemoryStore now in
  dom (todos s) = {[1; 2; 3]} ∧
  size (todos s) = 3%nat ∧
  (∀ id todo, todos s !! id = Some todo → ID todo = id) ∧
  nextID s = 4 ∧
  (∃ l, GetAllTodos range_map sort_Slice s = Ok l ∧ length l = 3%nat ∧
        (ID <$> l) ≡ₚ [1; 2; 3]) ∧
  (∀ now' req, ∃ todo,
     (CreateTodo now' s req).2 = Ok todo ∧ ID todo = 4 ∧ ID todo ≠ 1).
Proof.
  intros s.
  assert (Hdom : dom (todos s) = {[1; 2; 3]}).
  { subst s. unfold NewMemoryStore, Seed. simpl.
    rewrite !dom_insert_L, dom_empty_L. set_solver. }
  assert (Hsize : size (todos s) = 3%nat).
  { reflexivity. }
  split; [exact Hdom |]. split; [exact Hsize |].
  split; [intros id todo Hid; by apply (store_ok_NewMemoryStore now id) |].
  split; [reflexivity |]. split.
  - destruct (GetAllTodos_spec s) as (l & Hl & Hperm & _ & Hlen & _).
    exists l. split; [exact Hl |]. split; [by rewrite Hlen |].
    rewrite Hperm. unfold stored. subst s. unfold NewMemoryStore, Seed. simpl.
    rewrite !map_to_list_insert, map_to_list_empty; simpl.
    + exact (Permutation_rev [3; 2; 1]).
    + done.
    + by rewrite lookup_insert_ne, lookup_empty.
    + by rewrite !lookup_insert_ne, lookup_empty.
  - intros now' req. eexists. split; [reflexivity |].
    split; [reflexivity | discriminate].
Qed.

End Reads.

(* ===================================================================== *)
(** * The reference instance of [range] and [sort.Slice] *)
(* ===================================================================== *)

Lemma range_ascending_visits (m : gmap Z Todo) :
  range_ascending m ≡ₚ map_to_list m.
Proof. reflexivity. Qed.

Lemma insert_left_Permutation (less : Todo → Todo → bool) (x : Todo)
  (acc : list Todo) :
  insert_left less x acc ≡ₚ x :: acc.
Proof.
  induction acc as [|y acc IH]; simpl; [done |].
  destruct (less x y); [| done].
  rewrite IH. apply perm_swap.
Qed.

Lemma insertion_sort_permutes (less : Todo → Todo → bool) (l : list Todo) :
  insertion_sort less l ≡ₚ l.
Proof.
  unfold insertion_sort. rewrite <- Permutation_rev.
  assert (Hgen : ∀ acc,
            foldl (λ acc x, insert_left less x acc) acc l ≡ₚ l ++ acc).
  { induction l as [|x l IH]; intros acc; simpl; [done |].
    rewrite IH, insert_left_Permutation. by rewrite Permutation_middle. }
  rewrite Hgen. by rewrite app_nil_r.
Qed.

Lemma insert_left_sorted (less : Todo → Todo → bool) (x : Todo)
  (acc : list Todo) :
  strict_weak_order less →
  StronglySorted (λ u v, less u v = false) acc →
  StronglySorted (λ u v, less u v = false) (insert_left less x acc).
Proof.
  intros (Hirr & Htrans & Hneg).
  induction 1 as [|y acc Hsorted IH Hall]; simpl.
  - repeat constructor.
  - destruct (less x y) eqn:Hxy.
    + constructor; [exact IH |].
      rewrite insert_left_Permutation. constructor; [| exact Hall].
      destruct (less y x) eqn:Hyx; [| done].
      rewrite <- (Hirr x). symmetry. by apply (Htrans x y x).
    + constructor; [by constructor |].
      constructor; [exact Hxy |].
      eapply Forall_impl; [exact Hall |]. simpl. intros v Hyv.
      by apply (Hneg x y v).
Qed.

Lemma insertion_sort_sorts (less : Todo → Todo → bool) (l : list Todo) :
  strict_weak_order less → sorted_by less (insertion_sort less l).
Proof.
  intros Hless. unfold insertion_sort, sorted_by.
  assert (Hrev : ∀ acc, StronglySorted (λ u v, less u v = false) acc →
                        StronglySorted (λ a b, less b a = false) (rev acc)).
  { induction 1 as [|y acc _ IH Hall]; simpl; [constructor |].
    apply StronglySorted_app_2; [| exact IH | repeat constructor].
    intros a b Ha Hb. apply list_elem_of_singleton in Hb as ->.
    rewrite Forall_forall in Hall. apply Hall.
    by apply list_elem_of_In, in_rev, list_elem_of_In. }
  apply Hrev.
  assert (Hgen : ∀ acc, StronglySorted (λ u v, less u v = false) acc →
            StronglySorted (λ u v, less u v = false)
              (foldl (λ acc x, insert_left less x acc) acc l)).
  { induction l as [|x l IH]; intros acc Hacc; simpl; [done |].
    by apply IH, insert_left_sorted. }
  apply Hgen. constructor.
Qed.

Lemma GetAllTodos_spec_witness :
  ∃ l, GetAllTodos range_ascending insertion_sort (NewMemoryStore 0) = Ok l ∧
       ID <$> l = [3; 1; 2] ∧ StronglySorted created_desc l.
Proof.
  destruct (GetAllTodos_spec range_ascending insertion_sort
              range_ascending_visits insertion_sort_permutes
              insertion_sort_sorts (NewMemoryStore 0))
    as (l & Hl & _ & _ & _ & Hsorted).
  exists l. split; [exact Hl |]. split; [| exact Hsorted].
  injection Hl as <-. reflexivity.
Defined.

Lemma SearchTodos_spec_witness :
  ∃ l, SearchTodos range_ascending insertion_sort (NewMemoryStore 0)
         "Go" "" (Some false) = Ok l ∧
       ID <$> l = [1] ∧ StronglySorted priority_desc_then_created_desc l.
Proof.
  destruct (SearchTodos_spec range_ascending insertion_sort
              range_ascending_visits insertion_sort_permutes
              insertion_sort_sorts (NewMemoryStore 0) "Go" "" (Some false))
    as (l & Hl & _ & _ & Hsorted).
  exists l. split; [exact Hl |]. split; [| exact Hsorted].
  injection Hl as <-. reflexivity.
Defined.

Lemma NewMemoryStore_seeded_witness :
  ∃ l, GetAllTodos range_ascending insertion_sort (NewMemoryStore 0) = Ok l ∧
       length l = 3%nat.
Proof.
  destruct (NewMemoryStore_seeded range_ascending insertion_sort
              range_ascending_visits insertion_sort_permutes
              insertion_sort_sorts 0)
    as (_ & _ & _ & _ & (l & Hl & Hlen & _) & _).
  exists l. split; [exact Hl | exact Hlen].
Defined.

(** The example of the specification: three todos with priorities 1, 3, 2
    created in that order are listed most recently created first and
    searched, without filters, by priority descending. *)
Example list_and_search_three :
  let req p := mkTodoRequest "t" "" false p "" 0 in
  let s0 := {| todos := ∅; nextID := 1 |} in
  let s := (run range_ascending insertion_sort
              [(10, CallCreateTodo (req 1)); (20, CallCreateTodo (req 3));
               (30, CallCreateTodo (req 2))] s0).1 in
  ∃ l1 l2,
    GetAllTodos range_ascending insertion_sort s = Ok l1 ∧
    Priority <$> l1 = [2; 3; 1] ∧
    SearchTodos range_ascending insertion_sort s "" "" None = Ok l2 ∧
    Priority <$> l2 = [3; 2; 1].
Proof. eexists _, _. repeat split. Qed.

(* ===================================================================== *)
(** * Statistics *)
(* ===================================================================== *)

Lemma count_if_cons (P : Todo → bool) (x : Todo) (l : list Todo) :
  count_if P (x :: l) = (if P x then 1 else 0) + count_if P l.
Proof. unfold count_if. simpl. destruct (P x); simpl; lia. Qed.

Lemma count_if_nonneg (P : Todo → bool) (l : list Todo) : 0 ≤ count_if P l.
Proof. unfold count_if. lia. Qed.

Lemma count_if_ext (P Q : Todo → bool) (l : list Todo) :
  (∀ x, P x = Q x) → count_if P l = count_if Q l.
Proof.
  intros HPQ. unfold count_if. f_equal. f_equal.
  apply filter_ext. exact HPQ.
Qed.

(** The six keys of the result, one iteration at a time. *)
Lemma stats_step_fields (now : Time) (st : Stats) (t : Todo) :
  let st' := stats_step now st t in
  total st' = total st ∧
  completed st' = (if Completed t then incr (completed st) else completed st) ∧
  pending st' =
    (if negb (Completed t) then incr (pending st) else pending st) ∧
  overdue st' =
    (if negb (Completed t) && negb (DueDate t =? 0) && (DueDate t <? now)
     then incr (overdue st) else overdue st) ∧
  by_priority st' = map_incr (Priority t) (by_priority st) ∧
  by_category st' =
    (if negb (String.eqb (Category t) "")
     then map_incr (Category t) (by_category st) else by_category st).
Proof.
  unfold stats_step, IsZero, Before.
  destruct (Completed t), (DueDate t =? 0), (DueDate t <? now),
    (negb (String.eqb (Category t) "")); simpl; done.
Qed.

(** A counter that each iteration either increments or leaves alone ends
    at its initial value plus the number of increments, provided there is
    room for one increment per element below [int_max]. *)
Lemma foldl_counter (step : Stats → Todo → Stats) (f : Stats → Z)
  (hit : Todo → bool) :
  (∀ st t, f (step st t) = if hit t then incr (f st) else f st) →
  ∀ l st,
    0 ≤ f st →
    f st + Z.of_nat (length l) ≤ int_max →
    f (foldl step st l) = f st + count_if hit l.
Proof.
  intros Hstep. induction l as [|x l IH]; intros st Hnn Hroom.
  - unfold count_if. simpl. lia.
  - simpl foldl. rewrite count_if_cons.
    simpl length in Hroom. specialize (Hstep st x).
    assert (Hmin : int_min < 0) by reflexivity.
    destruct (hit x).
    + rewrite incr_no_overflow in Hstep by lia.
      rewrite IH; lia.
    + rewrite IH; lia.
Qed.

(** The same for the entry of a key [p] in a map of counters: the entry
    appears with the first increment. *)
Lemma foldl_map_counter `{Countable K} (step : Stats → Todo → Stats)
  (g : Stats → gmap K Z) (p : K) (hit : Todo → bool) :
  (∀ st t, g (step st t) !! p =
           if hit t then Some (incr (default 0 (g st !! p))) else g st !! p) →
  ∀ l st,
    (∀ v, g st !! p = Some v → 0 < v) →
    default 0 (g st !! p) + Z.of_nat (length l) ≤ int_max →
    g (foldl step st l) !! p =
      if count_if hit l =? 0 then g st !! p
      else Some (default 0 (g st !! p) + count_if hit l).
Proof.
  intros Hstep. induction l as [|x l IH]; intros st Hpos Hroom.
  - reflexivity.
  - simpl foldl. rewrite count_if_cons.
    simpl length in Hroom. specialize (Hstep st x).
    pose proof (count_if_nonneg hit l) as Hnn.
    assert (Hmin : int_min < 0) by reflexivity.
    assert (Hd : 0 ≤ default 0 (g st !! p)).
    { destruct (g st !! p) as [v|] eqn:Hv; simpl; [| lia].
      specialize (Hpos v eq_refl). lia. }
    destruct (hit x).
    + rewrite incr_no_overflow in Hstep by lia.
      rewrite IH; rewrite Hstep; simpl.
      * destruct (Z.eqb_spec (count_if hit l) 0) as [Hz | Hne];
          destruct (Z.eqb_spec (1 + count_if hit l) 0);
          try lia; f_equal; lia.
      * intros v [= <-]. lia.
      * lia.
    + rewrite IH; rewrite Hstep; [done | done | lia].
Qed.

Lemma lookup_map_incr `{Countable K} (k p : K) (m : gmap K Z) :
  map_incr k m !! p =
  if decide (k = p) then Some (incr (default 0 (m !! p))) else m !! p.
Proof.
  unfold map_incr. rewrite lookup_insert.
  destruct (decide (k = p)) as [-> |]; done.
Qed.

Lemma foldl_total (now : Time) (l : list Todo) (st : Stats) :
  total (foldl (stats_step now) st l) = total st.
Proof.
  revert st. induction l as [|x l IH]; intros st; simpl; [done |].
  rewrite IH. apply (stats_step_fields now st x).
Qed.

Section Statistics.

Variable range_map : gmap Z Todo → list (Z * Todo).
Hypothesis range_map_visits : ∀ m, range_map m ≡ₚ map_to_list m.

(** C7: on a store whose size fits an [int] (as [len] requires), GetStats
    never fails and returns: total, the number of stored todos; completed,
    the number of them with completed true; pending, the number with
    completed false; overdue, the number that are pending and have a
    non-zero due date before the current time; by_priority, with an entry
    for each priority some todo has, counting the todos of that priority;
    by_category, with an entry for each non-empty category some todo has,
    counting the todos of that category, and no entry for the empty
    category.  On a store without todos the four counts are 0 and the two
    maps are empty. *)
Theorem GetStats_spec (now : Time) (s : MemoryStore) :
  len (todos s) ≤ int_max →
  ∃ st,
    GetStats range_map now s = Ok st ∧
    total st = Z.of_nat (size (todos s)) ∧
    completed st = count_if Completed (stored s) ∧
    pending st = count_if (λ t, negb (Completed t)) (stored s) ∧
    overdue st =
      count_if (λ t, negb (Completed t) && negb (DueDate t =? 0)
                     && (DueDate t <? now)) (stored s) ∧
    (∀ p, by_priority st !! p =
          let n := count_if (λ t, Priority t =? p) (stored s) in
          if n =? 0 then None else Some n) ∧
    (∀ c, by_category st !! c =
          let n := count_if (λ t, String.eqb (Category t) c) (stored s) in
          if String.eqb c "" || (n =? 0) then None else Some n) ∧
    (todos s = ∅ → st = mkStats 0 0 0 0 ∅ ∅).
Proof.
  intros Hlen. unfold GetStats. eexists. split; [reflexivity |].
  set (l := (range_map (todos s)).*2).
  set (st0 := mkStats (len (todos s)) 0 0 0 ∅ ∅).
  assert (Hperm : l ≡ₚ stored s)
    by (unfold l, stored; by rewrite range_map_visits).
  assert (Hroom : 0 + Z.of_nat (length l) ≤ int_max).
  { rewrite (Permutation_length Hperm), length_stored. exact Hlen. }
  split; [| split; [| split; [| split; [| split; [| split]]]]].
  - rewrite foldl_total. unfold st0, len. reflexivity.
  - rewrite <- (count_if_Permutation _ _ _ Hperm).
    rewrite (foldl_counter (stats_step now) completed Completed);
      [reflexivity | | simpl; lia | exact Hroom].
    intros st t. apply (stats_step_fields now st t).
  - rewrite <- (count_if_Permutation _ _ _ Hperm).
    rewrite (foldl_counter (stats_step now) pending
               (λ t, negb (Completed t)));
      [reflexivity | | simpl; lia | exact Hroom].
    intros st t. apply (stats_step_fields now st t).
  - rewrite <- (count_if_Permutation _ _ _ Hperm).
    rewrite (foldl_counter (stats_step now) overdue
               (λ t, negb (Completed t) && negb (DueDate t =? 0)
                     && (DueDate t <? now)));
      [reflexivity | | simpl; lia | exact Hroom].
    intros st t. apply (stats_step_fields now st t).
  - intros p. cbv zeta. rewrite <- (count_if_Permutation _ _ _ Hperm).
    rewrite (foldl_map_counter (stats_step now) by_priority p
               (λ t, Priority t =? p)).
    + simpl. rewrite lookup_empty. simpl. reflexivity.
    + intros st t.
      destruct (stats_step_fields now st t) as (_ & _ & _ & _ & -> & _).
      rewrite lookup_map_incr.
      destruct (Z.eqb_spec (Priority t) p), (decide (Priority t = p)); done.
    + simpl. intros v. rewrite lookup_empty. discriminate.
    + simpl. rewrite lookup_empty. exact Hroom.
  - intros c. cbv zeta. rewrite <- (count_if_Permutation _ _ _ Hperm).
    rewrite (foldl_map_counter (stats_step now) by_category c
               (λ t, negb (String.eqb (Category t) "")
                     && String.eqb (Category t) c)).
    + simpl. rewrite lookup_empty. simpl.
      destruct (String.eqb_spec c "") as [-> | Hc]; simpl.
      * rewrite (count_if_ext _ (λ _, false)).
        -- replace (count_if (λ _, false) l) with 0; [done |].
           unfold count_if. clear. induction l; simpl; lia.
        -- intros t. by destruct (String.eqb (Category t) "").
      * rewrite (count_if_ext _ (λ t, String.eqb (Category t) c)); [done |].
        intros t. destruct (String.eqb_spec (Category t) c) as [-> | ?].
        -- destruct (String.eqb_spec c ""); done.
        -- apply andb_false_r.
    + intros st t.
      destruct (stats_step_fields now st t) as (_ & _ & _ & _ & _ & ->).
      destruct (String.eqb_spec (Category t) "") as [Hempty | Hne]; simpl.
      * reflexivity.
      * rewrite lookup_map_incr.
        destruct (String.eqb_spec (Category t) c),
          (decide (Category t = c)); done.
    + simpl. intros v. rewrite lookup_empty. discriminate.
    + simpl. rewrite lookup_empty. exact Hroom.
  - intros Hempty.
    assert (Hnil : l = []).
    { apply Permutation_nil_r. rewrite Hperm. unfold stored.
      by rewrite Hempty, map_to_list_empty. }
    rewrite Hnil. unfold st0, len. rewrite Hempty. reflexivity.
Qed.

End Statistics.

Lemma GetStats_spec_witness :
  ∃ st, GetStats range_ascending (15 * 24 * Hour)
          (NewMemoryStore (10 * 24 * Hour)) = Ok st ∧
        (total st, completed st, pending st, overdue st) = (3, 1, 2, 1) ∧
        by_priority st !! 4 = Some 1 ∧ by_priority st !! 5 = None.
Proof.
  destruct (GetStats_spec range_ascending range_ascending_visits
              (15 * 24 * Hour) (NewMemoryStore (10 * 24 * Hour)))
    as (st & Hst & _); [vm_compute; discriminate |].
  exists st. split; [exact Hst |].
  injection Hst as <-. repeat split.
Defined.

(* ===================================================================== *)
(** * Further properties of the store *)
(* ===================================================================== *)

Section Runs.

Variable range_map : gmap Z Todo → list (Z * Todo).
Variable sort_Slice : (Todo → Todo → bool) → list Todo → list Todo.

Lemma exec_times_ok (clk now : Time) (c : call) (s : MemoryStore) :
  clk ≤ now → times_ok clk s →
  times_ok now (exec range_map sort_Slice now c s).1.
Proof.
  intros Hle Hs.
  destruct c as [|id|req|id req|id|q cat comp|]; simpl;
    try (by eapply times_ok_later).
  - by apply (CreateTodo_times_ok clk).
  - pose proof (UpdateTodo_times_ok clk now s id req Hle Hs) as H.
    by destruct (UpdateTodo now s id req).
  - pose proof (DeleteTodo_times_ok clk s id Hs) as H.
    destruct (DeleteTodo s id). by eapply times_ok_later.
Qed.

(** With a clock that never goes back, every sequence of calls keeps the
    timestamps of the store at or before the last reading of the clock. *)
Lemma run_times_ok (clk : Time) (cs : list (Time * call)) (s : MemoryStore) :
  times_ok clk s →
  clock_monotone clk cs →
  times_ok (last_clock clk cs) (run range_map sort_Slice cs s).1.
Proof.
  revert clk s. induction cs as [|[now c] cs IH]; intros clk s Hs Hclk.
  - exact Hs.
  - destruct Hclk as [Hle Hclk]. rewrite run_cons. cbv zeta. simpl fst.
    simpl last_clock. apply IH; [| exact Hclk]. by apply (exec_times_ok clk).
Qed.

(** X1: when the clock never goes back, no call of the store leaves a todo
    whose updated_at is before its created_at: the property holds of the
    seeded store and of every store reached from a store that has it by
    any sequence of calls. *)
Theorem updated_never_before_created (clk : Time) (cs : list (Time * call))
  (s : MemoryStore) :
  times_ok clk s →
  clock_monotone clk cs →
  ∀ id todo,
    todos (run range_map sort_Slice cs s).1 !! id = Some todo →
    CreatedAt todo ≤ UpdatedAt todo.
Proof.
  intros Hs Hclk.
  assert (Hgen : ∃ clk', times_ok clk' (run range_map sort_Slice cs s).1).
  { revert clk s Hs Hclk. induction cs as [|[now c] cs IH];
      intros clk s Hs Hclk.
    - exists clk. exact Hs.
    - destruct Hclk as [Hle Hclk]. rewrite run_cons. cbv zeta. simpl fst.
      apply (IH now); [| exact Hclk]. by apply (exec_times_ok clk). }
  destruct Hgen as [clk' Hok]. intros id todo Hid.
  by destruct (Hok id todo Hid).
Qed.

(** X2: every call keeps each todo under the key that is its [ID]: if that
    holds of a store, then after any sequence of calls GetTodoByID, asked
    for an id, returns a todo with that id or ErrTodoNotFound. *)
Theorem found_todo_has_requested_id (cs : list (Time * call)) (s : MemoryStore) :
  (∀ id todo, todos s !! id = Some todo → ID todo = id) →
  ∀ id,
    match GetTodoByID (run range_map sort_Slice cs s).1 id with
    | Ok todo => ID todo = id
    | Err e => e = ErrTodoNotFound
    end.
Proof.
  intros Hkeys.
  assert (Hgen : ∀ id todo,
            todos (run range_map sort_Slice cs s).1 !! id = Some todo →
            ID todo = id).
  { revert s Hkeys. induction cs as [|[now c] cs IH]; intros s Hkeys.
    - exact Hkeys.
    - rewrite run_cons. cbv zeta. simpl fst. apply IH. clear IH.
      destruct c as [|id|req|id req|id|q cat comp|]; simpl; try exact Hkeys.
      + intros id' todo. rewrite lookup_insert_Some.
        intros [[<- <-] | [_ Hid]]; [done | by apply Hkeys].
      + unfold UpdateTodo. destruct (todos s !! id) as [old|] eqn:Hold;
          simpl; [| exact Hkeys].
        intros id' todo. rewrite lookup_insert_Some.
        intros [[<- <-] | [_ Hid]]; [simpl; by apply Hkeys | by apply Hkeys].
      + unfold DeleteTodo. destruct (todos s !! id) as [old|] eqn:Hold;
          simpl; [| exact Hkeys].
        intros id' todo. rewrite lookup_delete_Some.
        intros [_ Hid]. by apply Hkeys. }
  intros id. unfold GetTodoByID.
  destruct (todos _ !! id) as [todo|] eqn:Hid; [by apply Hgen | done].
Qed.

(** X3: a call changes at most one record.  The four reads return the
    store as it was; CreateTodo changes only what is stored under the
    counter's value; UpdateTodo and DeleteTodo change only what is stored
    under the id they are given. *)
Theorem exec_changes_one_record (now : Time) (c : call) (s : MemoryStore)
  (id' : Z) :
  let s' := (exec range_map sort_Slice now c s).1 in
  (takes_Lock c = false → s' = s) ∧
  (match c with
   | CallCreateTodo _ => id' ≠ nextID s
   | CallUpdateTodo id _ | CallDeleteTodo id => id' ≠ id
   | _ => True
   end →
   GetTodoByID s' id' = GetTodoByID s id').
Proof.
  unfold GetTodoByID.
  destruct c as [|id|req|id req|id|q cat comp|]; simpl;
    try (split; [done | done]).
  - split; [discriminate |]. intros Hne. by rewrite lookup_insert_ne.
  - split; [discriminate |]. intros Hne. unfold UpdateTodo.
    destruct (todos s !! id); simpl; [| done]. by rewrite lookup_insert_ne.
  - split; [discriminate |]. intros Hne. unfold DeleteTodo.
    destruct (todos s !! id); simpl; [| done]. by rewrite lookup_delete_ne.
Qed.

End Runs.

Lemma updated_never_before_created_witness :
  let req := mkTodoRequest "Buy milk" "" false 1 "" 0 in
  let cs := [(10, CallCreateTodo req); (20, CallUpdateTodo 1 req);
             (20, CallDeleteTodo 2)] in
  ∃ todo,
    todos (run range_ascending insertion_sort cs (NewMemoryStore 5)).1 !! 1
      = Some todo ∧
    UpdatedAt todo = 20 ∧
    CreatedAt todo ≤ UpdatedAt todo.
Proof.
  intros req cs. eexists. split; [reflexivity |]. split; [reflexivity |].
  apply (updated_never_before_created range_ascending insertion_sort 5 cs
           (NewMemoryStore 5)) with (id := 1).
  - apply times_ok_NewMemoryStore.
  - simpl. lia.
  - reflexivity.
Defined.

Lemma found_todo_has_requested_id_witness :
  let req := mkTodoRequest "Buy milk" "" false 1 "" 0 in
  let cs := [(10, CallCreateTodo req); (20, CallDeleteTodo 2)] in
  match GetTodoByID
          (run range_ascending insertion_sort cs (NewMemoryStore 5)).1 4 with
  | Ok todo => ID todo = 4
  | Err e => e = ErrTodoNotFound
  end.
Proof.
  intros req cs.
  apply (found_todo_has_requested_id range_ascending insertion_sort cs
           (NewMemoryStore 5)).
  intros id todo Hid. by apply (store_ok_NewMemoryStore 5 id).
Defined.

Lemma exec_changes_one_record_witness :
  GetTodoByID
    (exec range_ascending insertion_sort 10 (CallDeleteTodo 2)
       (NewMemoryStore 5)).1 3
  = GetTodoByID (NewMemoryStore 5) 3.
Proof.
  apply (exec_changes_one_record range_ascending insertion_sort 10
           (CallDeleteTodo 2) (NewMemoryStore 5) 3).
  simpl. lia.
Defined.

(** X4: on a store whose ids are below its counter, deleting the todo
    CreateTodo has just returned succeeds and gives back the todos the
    store had before; the counter keeps its new value, so the id is not
    handed out again. *)
Theorem CreateTodo_then_DeleteTodo (now : Time) (s : MemoryStore)
  (req : TodoRequest) :
  store_ok s →
  DeleteTodo (CreateTodo now s req).1 (nextID s)
  = ({| todos := todos s; nextID := incr (nextID s) |}, None).
Proof.
  intros Hok.
  assert (Hfree : todos s !! nextID s = None).
  { destruct (todos s !! nextID s) as [t|] eqn:Ht; [| done].
    apply Hok in Ht as [_ ?]. lia. }
  unfold DeleteTodo, CreateTodo. simpl. rewrite lookup_insert_eq. simpl.
  by rewrite delete_insert_eq, delete_id.
Qed.

Lemma CreateTodo_then_DeleteTodo_witness :
  let req := mkTodoRequest "Buy milk" "" false 1 "" 0 in
  todos (DeleteTodo (CreateTodo 10 (NewMemoryStore 5) req).1 4).1
  = todos (NewMemoryStore 5).
Proof.
  intros req.
  pose proof (CreateTodo_then_DeleteTodo 10 (NewMemoryStore 5) req
                (store_ok_NewMemoryStore 5)) as Hround.
  change (nextID (NewMemoryStore 5)) with 4 in Hround.
  by rewrite Hround.
Defined.

(** X5: on a store whose ids are below its counter, CreateTodo adds exactly
    one todo; UpdateTodo never changes the number of todos nor the set of
    ids; DeleteTodo removes exactly one todo when it succeeds and none when
    it fails. *)
Theorem number_of_todos (now : Time) (s : MemoryStore) (id : Z)
  (req : TodoRequest) :
  store_ok s →
  size (todos (CreateTodo now s req).1) = S (size (todos s)) ∧
  dom (todos (UpdateTodo now s id req).1) = dom (todos s) ∧
  size (todos (UpdateTodo now s id req).1) = size (todos s) ∧
  match (DeleteTodo s id).2 with
  | None => S (size (todos (DeleteTodo s id).1)) = size (todos s)
  | Some _ => size (todos (DeleteTodo s id).1) = size (todos s)
  end.
Proof.
  intros Hok. split; [| split; [| split]].
  - simpl. apply map_size_insert_None.
    destruct (todos s !! nextID s) as [t|] eqn:Ht; [| done].
    apply Hok in Ht as [_ ?]. lia.
  - unfold UpdateTodo. destruct (todos s !! id) as [old|] eqn:Hold; [| done].
    simpl. rewrite dom_insert_L.
    apply subseteq_union_1_L, singleton_subseteq_l, elem_of_dom. eauto.
  - unfold UpdateTodo. destruct (todos s !! id) as [old|] eqn:Hold; [| done].
    simpl. apply map_size_insert_Some. eauto.
  - unfold DeleteTodo. destruct (todos s !! id) as [old|] eqn:Hold; simpl.
    + rewrite map_size_delete_Some by eauto.
      assert (size (todos s) ≠ 0%nat); [| lia].
      intros Hz. apply map_size_empty_inv in Hz. by rewrite Hz in Hold.
    + done.
Qed.

Lemma number_of_todos_witness :
  let req := mkTodoRequest "Buy milk" "" false 1 "" 0 in
  size (todos (CreateTodo 10 (NewMemoryStore 5) req).1) = 4%nat ∧
  size (todos (DeleteTodo (NewMemoryStore 5) 2).1) = 2%nat.
Proof.
  intros req.
  destruct (number_of_todos 10 (NewMemoryStore 5) 2 req
              (store_ok_NewMemoryStore 5)) as (Hc & _ & _ & Hd).
  split; [exact Hc |]. apply (Nat.succ_inj _ 2%nat). exact Hd.
Defined.

(** X6: the last write to an id wins.  A second UpdateTodo of the same id
    returns and stores what it would have without the first one, and a
    DeleteTodo after an UpdateTodo of the same id does what it would have
    done without the update. *)
Theorem last_write_wins (now1 now2 : Time) (s : MemoryStore) (id : Z)
  (req1 req2 : TodoRequest) :
  UpdateTodo now2 (UpdateTodo now1 s id req1).1 id req2
    = UpdateTodo now2 s id req2 ∧
  DeleteTodo (UpdateTodo now1 s id req1).1 id = DeleteTodo s id.
Proof.
  unfold UpdateTodo, DeleteTodo.
  destruct (todos s !! id) as [old|] eqn:Hold; simpl.
  - rewrite lookup_insert_eq. simpl.
    by rewrite insert_insert_eq, delete_insert_eq.
  - by rewrite Hold.
Qed.

(** X7: the status of a response tells its two flags apart: it is "已完成"
    exactly when completed is true, "已过期" exactly when is_overdue is
    true, and "进行中" exactly when both are false; is_overdue is never
    true of a completed todo. *)
Theorem ToResponse_status_decodes (now : Time) (t : Todo) :
  let r := ToResponse now t in
  (resp_Status r = "已完成" ↔ resp_Completed r = true) ∧
  (resp_Status r = "已过期" ↔ resp_IsOverdue r = true) ∧
  (resp_Status r = "进行中" ↔
     resp_Completed r = false ∧ resp_IsOverdue r = false) ∧
  ¬ (resp_Completed r = true ∧ resp_IsOverdue r = true).
Proof.
  unfold ToResponse, isOverdue. simpl.
  destruct (Completed t); simpl.
  - repeat split; try done; intros [? ?]; done.
  - destruct (negb (IsZero (DueDate t)) && Before (DueDate t) now); simpl.
    + repeat split; try done; intros [? ?]; done.
    + repeat split; try done; intros [? ?]; done.
Qed.

(* ===================================================================== *)
(** * Further properties of searching and of the statistics *)
(* ===================================================================== *)

Lemma matches_completed (query category : string) (b : bool) (todo : Todo) :
  matches query category (Some b) todo
  = matches query category None todo && Bool.eqb (Completed todo) b.
Proof. reflexivity. Qed.

Lemma filter_completed_partition (query category : string) (l : list Todo) :
  List.filter (matches query category (Some true)) l ++
  List.filter (matches query category (Some false)) l
  ≡ₚ List.filter (matches query category None) l.
Proof.
  induction l as [|x l IH]; [done |]. cbn [List.filter].
  rewrite !matches_completed.
  destruct (matches query category None x), (Completed x); simpl.
  - by rewrite IH.
  - rewrite <- Permutation_middle. by rewrite IH.
  - exact IH.
  - exact IH.
Qed.

Section SearchAndList.

Variable range_map : gmap Z Todo → list (Z * Todo).
Variable sort_Slice : (Todo → Todo → bool) → list Todo → list Todo.
Hypothesis range_map_visits : ∀ m, range_map m ≡ₚ map_to_list m.
Hypothesis sort_Slice_permutes : ∀ less l, sort_Slice less l ≡ₚ l.

(** X8: SearchTodos with an empty query, an empty category and a nil
    completed filter returns the todos GetAllTodos returns, each as many
    times; only their order may differ. *)
Theorem search_without_filters_lists_all (s : MemoryStore) :
  ∃ found all,
    SearchTodos range_map sort_Slice s "" "" None = Ok found ∧
    GetAllTodos range_map sort_Slice s = Ok all ∧
    found ≡ₚ all.
Proof.
  eexists _, _. split; [reflexivity |]. split; [reflexivity |].
  rewrite !sort_Slice_permutes.
  assert (Hall : ∀ l : list Todo, List.filter (matches "" "" None) l = l).
  { induction l as [|x l IH]; [done |]. simpl. by rewrite IH. }
  by rewrite Hall.
Qed.

(** X9: for any query and category, the todos found with the completed
    filter set to true and those found with it set to false are, together,
    the todos found without a completed filter: no todo is found by both,
    none is lost. *)
Theorem search_completed_partitions (s : MemoryStore)
  (query category : string) :
  ∃ finished unfinished both,
    SearchTodos range_map sort_Slice s query category (Some true)
      = Ok finished ∧
    SearchTodos range_map sort_Slice s query category (Some false)
      = Ok unfinished ∧
    SearchTodos range_map sort_Slice s query category None = Ok both ∧
    finished ++ unfinished ≡ₚ both ∧
    Forall (λ todo, Completed todo = true) finished ∧
    Forall (λ todo, Completed todo = false) unfinished.
Proof.
  eexists _, _, _. split; [reflexivity |]. split; [reflexivity |].
  split; [reflexivity |].
  rewrite !sort_Slice_permutes. split; [apply filter_completed_partition |].
  split; apply Forall_forall; intros todo;
    rewrite list_elem_of_In, filter_In, matches_completed, andb_true_iff,
      Bool.eqb_true_iff; tauto.
Qed.

End SearchAndList.

Lemma search_without_filters_lists_all_witness :
  ∃ found all,
    SearchTodos range_ascending insertion_sort (NewMemoryStore 0) "" "" None
      = Ok found ∧
    GetAllTodos range_ascending insertion_sort (NewMemoryStore 0) = Ok all ∧
    ID <$> found = [2; 1; 3] ∧ ID <$> all = [3; 1; 2] ∧ found ≡ₚ all.
Proof.
  destruct (search_without_filters_lists_all range_ascending insertion_sort
              insertion_sort_permutes (NewMemoryStore 0))
    as (found & all & Hfound & Hall & Hperm).
  exists found, all. split; [exact Hfound |]. split; [exact Hall |].
  split; [| split; [| exact Hperm]].
  - injection Hfound as <-. reflexivity.
  - injection Hall as <-. reflexivity.
Defined.

Lemma search_completed_partitions_witness :
  ∃ finished unfinished both,
    SearchTodos range_ascending insertion_sort (NewMemoryStore 0) "" ""
      (Some true) = Ok finished ∧
    SearchTodos range_ascending insertion_sort (NewMemoryStore 0) "" ""
      (Some false) = Ok unfinished ∧
    SearchTodos range_ascending insertion_sort (NewMemoryStore 0) "" "" None
      = Ok both ∧
    ID <$> finished = [2] ∧ ID <$> unfinished = [1; 3] ∧
    finished ++ unfinished ≡ₚ both.
Proof.
  destruct (search_completed_partitions range_ascending insertion_sort
              insertion_sort_permutes (NewMemoryStore 0) "" "")
    as (f & u & b & Hf & Hu & Hb & Hperm & _).
  exists f, u, b. split; [exact Hf |]. split; [exact Hu |].
  split; [exact Hb |]. split; [| split; [| exact Hperm]].
  - injection Hf as <-. reflexivity.
  - injection Hu as <-. reflexivity.
Defined.

Lemma count_if_length (P : Todo → bool) (l : list Todo) :
  count_if P l + count_if (λ t, negb (P t)) l = Z.of_nat (length l).
Proof.
  induction l as [|x l IH]; [done |].
  rewrite !count_if_cons. simpl length. destruct (P x); simpl; lia.
Qed.

Lemma count_if_all (P : Todo → bool) (l : list Todo) :
  (∀ t, P t = true) → count_if P l = Z.of_nat (length l).
Proof.
  intros HP. induction l as [|x l IH]; [done |].
  rewrite count_if_cons, HP, IH. simpl length. lia.
Qed.

Lemma count_if_le (P Q : Todo → bool) (l : list Todo) :
  (∀ t, P t = true → Q t = true) → count_if P l ≤ count_if Q l.
Proof.
  intros HPQ. induction l as [|x l IH]; [done |].
  rewrite !count_if_cons. specialize (HPQ x).
  destruct (P x), (Q x); lia.
Qed.

Lemma map_sum_insert_None `{Countable K} (k : K) (v : Z) (m : gmap K Z) :
  m !! k = None → map_sum (<[k := v]> m) = v + map_sum m.
Proof.
  intros Hk. unfold map_sum.
  rewrite map_fold_insert_L; [done | intros; lia | done].
Qed.

Lemma map_sum_delete `{Countable K} (k : K) (v : Z) (m : gmap K Z) :
  m !! k = Some v → map_sum m = v + map_sum (delete k m).
Proof.
  intros Hk. unfold map_sum.
  rewrite (map_fold_delete_L _ _ k v m); [done | intros; lia | done].
Qed.

Lemma map_sum_nonneg `{Countable K} (m : gmap K Z) :
  (∀ k v, m !! k = Some v → 0 < v) → 0 ≤ map_sum m.
Proof.
  induction m as [|k v m Hk IH] using map_ind; intros Hpos.
  - unfold map_sum. by rewrite map_fold_empty.
  - rewrite map_sum_insert_None by done.
    assert (0 < v) by (apply (Hpos k); by rewrite lookup_insert_eq).
    assert (0 ≤ map_sum m); [| lia].
    apply IH. intros k' v' Hk'. apply (Hpos k').
    rewrite lookup_insert_ne; [done |]. intros ->. congruence.
Qed.

(** [m[k]++] adds one to the sum of a breakdown of positive counts whose
    sum is below [int_max]. *)
Lemma map_sum_incr `{Countable K} (k : K) (m : gmap K Z) :
  (∀ k' v, m !! k' = Some v → 0 < v) →
  map_sum m < int_max →
  map_sum (map_incr k m) = map_sum m + 1 ∧
  (∀ k' v, map_incr k m !! k' = Some v → 0 < v).
Proof.
  intros Hpos Hroom. unfold map_incr.
  assert (Hmin : int_min < 0) by reflexivity.
  destruct (m !! k) as [v|] eqn:Hk; simpl.
  - pose proof (Hpos k v Hk) as Hv.
    pose proof (map_sum_delete k v m Hk) as Hsum.
    assert (Hrest : 0 ≤ map_sum (delete k m)).
    { apply map_sum_nonneg. intros k' v'. rewrite lookup_delete_Some.
      intros [_ Hk']. by apply (Hpos k'). }
    rewrite incr_no_overflow by lia. split.
    + rewrite <- insert_delete_eq, map_sum_insert_None
        by apply lookup_delete_eq. lia.
    + intros k' v'. rewrite lookup_insert_Some.
      intros [[_ <-] | [_ Hk']]; [lia | by apply (Hpos k')].
  - change (incr 0) with 1. split.
    + rewrite map_sum_insert_None by done. lia.
    + intros k' v'. rewrite lookup_insert_Some.
      intros [[_ <-] | [_ Hk']]; [lia | by apply (Hpos k')].
Qed.

(** A breakdown that each iteration either increments at one key or
    leaves alone sums to the number of increments. *)
Lemma foldl_map_sum `{Countable K} (step : Stats → Todo → Stats)
  (g : Stats → gmap K Z) (key : Todo → option K) :
  (∀ st t, g (step st t) =
           match key t with
           | Some k => map_incr k (g st)
           | None => g st
           end) →
  ∀ l st,
    (∀ k v, g st !! k = Some v → 0 < v) →
    map_sum (g st) + Z.of_nat (length l) ≤ int_max →
    map_sum (g (foldl step st l))
    = map_sum (g st) + count_if (λ t, bool_decide (is_Some (key t))) l.
Proof.
  intros Hstep. induction l as [|x l IH]; intros st Hpos Hroom.
  - unfold count_if. simpl. lia.
  - simpl foldl. rewrite count_if_cons. simpl length in Hroom.
    specialize (Hstep st x).
    destruct (key x) as [k|] eqn:Hkey.
    + destruct (map_sum_incr k (g st) Hpos) as [Hsum Hpos']; [lia |].
      rewrite <- Hstep in Hsum, Hpos'.
      rewrite IH; [| exact Hpos' | lia].
      rewrite bool_decide_eq_true_2 by eauto. lia.
    + rewrite <- Hstep in Hpos.
      rewrite IH; [| exact Hpos | rewrite Hstep; lia].
      rewrite bool_decide_eq_false_2 by (intros [? ?]; done).
      rewrite Hstep. lia.
Qed.

Section StatisticsAddUp.

Variable range_map : gmap Z Todo → list (Z * Todo).
Hypothesis range_map_visits : ∀ m, range_map m ≡ₚ map_to_list m.

(** X10: the figures of GetStats add up.  On a store whose size fits an
    [int]: completed + pending = total; overdue is at most pending; the
    counts of by_priority sum to total; the counts of by_category sum to
    the number of todos with a non-empty category, which is at most
    total. *)
Theorem GetStats_adds_up (now : Time) (s : MemoryStore) :
  len (todos s) ≤ int_max →
  ∃ st,
    GetStats range_map now s = Ok st ∧
    completed st + pending st = total st ∧
    0 ≤ overdue st ≤ pending st ∧
    map_sum (by_priority st) = total st ∧
    map_sum (by_category st)
      = count_if (λ t, negb (String.eqb (Category t) "")) (stored s) ∧
    map_sum (by_category st) ≤ total st.
Proof.
  intros Hlen. unfold GetStats. eexists. split; [reflexivity |].
  set (l := (range_map (todos s)).*2).
  set (st0 := mkStats (len (todos s)) 0 0 0 ∅ ∅).
  assert (Hperm : l ≡ₚ stored s)
    by (unfold l, stored; by rewrite range_map_visits).
  assert (Hsize : Z.of_nat (length l) = len (todos s)).
  { unfold len. by rewrite (Permutation_length Hperm), length_stored. }
  assert (Hroom : 0 + Z.of_nat (length l) ≤ int_max) by lia.
  assert (Htotal : total (foldl (stats_step now) st0 l) = len (todos s))
    by (by rewrite foldl_total).
  assert (Hcompleted : completed (foldl (stats_step now) st0 l)
                       = count_if Completed l).
  { rewrite (foldl_counter (stats_step now) completed Completed);
      [reflexivity | | simpl; lia | exact Hroom].
    intros st t. apply (stats_step_fields now st t). }
  assert (Hpending : pending (foldl (stats_step now) st0 l)
                     = count_if (λ t, negb (Completed t)) l).
  { rewrite (foldl_counter (stats_step now) pending
               (λ t, negb (Completed t)));
      [reflexivity | | simpl; lia | exact Hroom].
    intros st t. apply (stats_step_fields now st t). }
  assert (Hoverdue : overdue (foldl (stats_step now) st0 l)
                     = count_if (λ t, negb (Completed t)
                                      && negb (DueDate t =? 0)
                                      && (DueDate t <? now)) l).
  { rewrite (foldl_counter (stats_step now) overdue
               (λ t, negb (Completed t) && negb (DueDate t =? 0)
                     && (DueDate t <? now)));
      [reflexivity | | simpl; lia | exact Hroom].
    intros st t. apply (stats_step_fields now st t). }
  assert (Hprio : map_sum (by_priority (foldl (stats_step now) st0 l))
                  = Z.of_nat (length l)).
  { rewrite (foldl_map_sum (stats_step now) by_priority
               (λ t, Some (Priority t))).
    - simpl. unfold map_sum at 1. rewrite map_fold_empty, Z.add_0_l.
      apply count_if_all. intros t. reflexivity.
    - intros st t. apply (stats_step_fields now st t).
    - simpl. intros k v. rewrite lookup_empty. discriminate.
    - simpl. unfold map_sum. rewrite map_fold_empty. exact Hroom. }
  assert (Hcat : map_sum (by_category (foldl (stats_step now) st0 l))
                 = count_if (λ t, negb (String.eqb (Category t) "")) l).
  { rewrite (foldl_map_sum (stats_step now) by_category
               (λ t, if negb (String.eqb (Category t) "")
                     then Some (Category t) else None)).
    - simpl. unfold map_sum at 1. rewrite map_fold_empty.
      rewrite Z.add_0_l. apply count_if_ext. intros t.
      by destruct (negb (String.eqb (Category t) "")).
    - intros st t.
      destruct (stats_step_fields now st t) as (_ & _ & _ & _ & _ & ->).
      by destruct (negb (String.eqb (Category t) "")).
    - simpl. intros k v. rewrite lookup_empty. discriminate.
    - simpl. unfold map_sum. rewrite map_fold_empty. exact Hroom. }
  split; [| split; [| split; [| split]]].
  - rewrite Hcompleted, Hpending, Htotal, <- Hsize. apply count_if_length.
  - rewrite Hoverdue, Hpending. split; [apply count_if_nonneg |].
    apply count_if_le. intros t. rewrite !andb_true_iff. tauto.
  - by rewrite Hprio, Htotal.
  - rewrite Hcat. by apply count_if_Permutation.
  - rewrite Hcat, Htotal, <- Hsize.
    pose proof (count_if_length (λ t, negb (String.eqb (Category t) "")) l).
    pose proof (count_if_nonneg
                  (λ t, negb (negb (String.eqb (Category t) ""))) l).
    lia.
Qed.

(** X11: GetStats agrees with the responses.  On a store whose size fits
    an [int], overdue is the number of stored todos whose response,
    computed at the same instant, has is_overdue true, and completed is
    the number of those whose response has the status "已完成". *)
Theorem GetStats_agrees_with_ToResponse (now : Time) (s : MemoryStore) :
  len (todos s) ≤ int_max →
  ∃ st,
    GetStats range_map now s = Ok st ∧
    overdue st
      = count_if (λ t, resp_IsOverdue (ToResponse now t)) (stored s) ∧
    completed st
      = count_if (λ t, String.eqb (resp_Status (ToResponse now t)) "已完成")
          (stored s).
Proof.
  intros Hlen. unfold GetStats. eexists. split; [reflexivity |].
  set (l := (range_map (todos s)).*2).
  assert (Hperm : l ≡ₚ stored s)
    by (unfold l, stored; by rewrite range_map_visits).
  assert (Hroom : 0 + Z.of_nat (length l) ≤ int_max).
  { rewrite (Permutation_length Hperm), length_stored. exact Hlen. }
  split.
  - rewrite <- (count_if_Permutation _ _ _ Hperm).
    rewrite (foldl_counter (stats_step now) overdue
               (λ t, resp_IsOverdue (ToResponse now t)));
      [reflexivity | | simpl; lia | exact Hroom].
    intros st t. apply (stats_step_fields now st t).
  - rewrite <- (count_if_Permutation _ _ _ Hperm).
    rewrite (foldl_counter (stats_step now) completed
               (λ t, String.eqb (resp_Status (ToResponse now t)) "已完成"));
      [reflexivity | | simpl; lia | exact Hroom].
    intros st t.
    destruct (stats_step_fields now st t) as (_ & -> & _).
    unfold ToResponse. simpl.
    destruct (Completed t); [done |]. by destruct (isOverdue now t).
Qed.

End StatisticsAddUp.

Lemma GetStats_adds_up_witness :
  ∃ st, GetStats range_ascending (15 * 24 * Hour)
          (NewMemoryStore (10 * 24 * Hour)) = Ok st ∧
        completed st + pending st = total st ∧
        map_sum (by_priority st) = 3 ∧ map_sum (by_category st) = 3.
Proof.
  destruct (GetStats_adds_up range_ascending range_ascending_visits
              (15 * 24 * Hour) (NewMemoryStore (10 * 24 * Hour)))
    as (st & Hst & Hsum & _ & Hprio & Hcat & _); [vm_compute; discriminate |].
  exists st. split; [exact Hst |]. split; [exact Hsum |].
  injection Hst as <-. split; [exact Hprio | exact Hcat].
Defined.

Lemma GetStats_agrees_with_ToResponse_witness :
  ∃ st, GetStats range_ascending (15 * 24 * Hour)
          (NewMemoryStore (10 * 24 * Hour)) = Ok st ∧
        overdue st = 1 ∧ completed st = 1.
Proof.
  destruct (GetStats_agrees_with_ToResponse range_ascending
              range_ascending_visits (15 * 24 * Hour)
              (NewMemoryStore (10 * 24 * Hour)))
    as (st & Hst & _); [vm_compute; discriminate |].
  exists st. split; [exact Hst |]. injection Hst as <-. split; reflexivity.
Defined.

(* ===================================================================== *)
(** * The JSON handlers *)
(* ===================================================================== *)

Ltac handler_case :=
  repeat split;
  first [ done
        | set_solver
        | intros;
          unfold StatusBadRequest, StatusOK, StatusCreated, StatusNotFound,
            StatusInternalServerError in *; lia ].

Section HandlerProperties.

Variable range_map : gmap Z Todo → list (Z * Todo).
Variable sort_Slice : (Todo → Todo → bool) → list Todo → list Todo.
Variable Atoi : string → option Z.
Variable Decode : string → option TodoRequest.

Lemma serve_all_cons (clock : nat → Time) (r : api_request)
  (rs : list ((nat → Time) * api_request)) (s : MemoryStore) :
  let s1 := (serve range_map sort_Slice Atoi Decode clock r s).1 in
  serve_all range_map sort_Slice Atoi Decode ((clock, r) :: rs) s
  = ((serve_all range_map sort_Slice Atoi Decode rs s1).1,
     (serve range_map sort_Slice Atoi Decode clock r s).2
       :: (serve_all range_map sort_Slice Atoi Decode rs s1).2).
Proof.
  simpl. destruct (serve range_map sort_Slice Atoi Decode clock r s)
    as [s1 resp]. simpl.
  by destruct (serve_all range_map sort_Slice Atoi Decode rs s1).
Qed.

(** X12: whatever the request, a handler answers 200, 201, 400 or 404 and
    never 500: the 500 branches of GetTodos, CreateTodo and CompleteTodo
    are not reached when requests are served one at a time.  A request
    answered 400 or 404 leaves the store as it was, and so do the two GET
    routes whatever they answer. *)
Theorem serve_status_codes (clock : nat → Time) (r : api_request)
  (s : MemoryStore) :
  let s' := (serve range_map sort_Slice Atoi Decode clock r s).1 in
  let code :=
    statusCode (serve range_map sort_Slice Atoi Decode clock r s).2 in
  code ∈ [StatusOK; StatusCreated; StatusBadRequest; StatusNotFound] ∧
  code ≠ StatusInternalServerError ∧
  (StatusBadRequest ≤ code → s' = s) ∧
  match r with
  | GET_todos | GET_todo _ => s' = s
  | _ => True
  end.
Proof.
  destruct r as [|body|id_var|id_var body|id_var|id_var]; simpl.
  - handler_case.
  - unfold Handler_CreateTodo.
    destruct (Decode body) as [req|]; simpl; [| handler_case].
    destruct (String.eqb (req_Title req) ""); simpl; handler_case.
  - unfold Handler_GetTodo, GetTodoByID.
    destruct (Atoi id_var) as [id|]; simpl; [| handler_case].
    destruct (todos s !! id); simpl; handler_case.
  - unfold Handler_UpdateTodo, UpdateTodo.
    destruct (Atoi id_var) as [id|]; simpl; [| handler_case].
    destruct (Decode body) as [req|]; simpl; [| handler_case].
    destruct (String.eqb (req_Title req) ""); simpl; [handler_case |].
    destruct (todos s !! id); simpl; handler_case.
  - unfold Handler_DeleteTodo, DeleteTodo.
    destruct (Atoi id_var) as [id|]; simpl; [| handler_case].
    destruct (todos s !! id); simpl; handler_case.
  - unfold Handler_CompleteTodo, GetTodoByID, UpdateTodo.
    destruct (Atoi id_var) as [id|]; simpl; [| handler_case].
    destruct (todos s !! id) as [old|] eqn:Hold; simpl; handler_case.
Qed.

(** X13: PATCH /api/todos/{id}/complete.  For an id the store does not
    hold the answer is 404 and nothing changes.  For an id it holds the
    answer is 200 with a response whose completed is true, whose status is
    "已完成" and whose is_overdue is false; id, title, description,
    priority, category, due date and created_at are those of the stored
    todo, updated_at is the time of the update; the stored todo is the one
    the response describes and every other todo is untouched. *)
Theorem Handler_CompleteTodo_spec (clock : nat → Time) (id_var : string)
  (id : Z) (s : MemoryStore) :
  Atoi id_var = Some id →
  match todos s !! id with
  | None =>
      Handler_CompleteTodo Atoi clock id_var s
      = (s, sendError "未找到" StatusNotFound)
  | Some old =>
      ∃ s' r,
        Handler_CompleteTodo Atoi clock id_var s
          = (s', sendJSON (DataTodo r) StatusOK) ∧
        resp_Completed r = true ∧
        resp_Status r = "已完成" ∧
        resp_IsOverdue r = false ∧
        (resp_ID r, resp_Title r, resp_Description r, resp_Priority r,
         resp_Category r, resp_DueDate r, resp_CreatedAt r)
        = (ID old, Title old, Description old, Priority old, Category old,
           DueDate old, CreatedAt old) ∧
        resp_UpdatedAt r = clock 0%nat ∧
        (∃ todo, todos s' !! id = Some todo ∧
                 r = ToResponse (clock 1%nat) todo) ∧
        (∀ id', id' ≠ id → todos s' !! id' = todos s !! id') ∧
        nextID s' = nextID s
  end.
Proof.
  intros Hid. unfold Handler_CompleteTodo, GetTodoByID, UpdateTodo.
  rewrite Hid. destruct (todos s !! id) as [old|] eqn:Hold; simpl; [| done].
  eexists _, _. split; [reflexivity |]. simpl.
  repeat split; try done.
  - eexists. split; [apply lookup_insert_eq | reflexivity].
  - intros id' Hne. by rewrite lookup_insert_ne.
Qed.

(** X14: POST /api/todos then GET /api/todos/{id}.  A body that decodes to
    a request with a non-empty title is answered 201, whatever the other
    fields are (the priority is not checked against 1..5, nor any length);
    the response carries the store's counter as id, the request's six
    fields, and created_at = updated_at = the time of the creation.  A GET
    of that id is then answered 200 with the same nine stored fields. *)
Theorem POST_then_GET (clock clock' : nat → Time) (body id_var : string)
  (req : TodoRequest) (s : MemoryStore) :
  Decode body = Some req →
  req_Title req ≠ "" →
  Atoi id_var = Some (nextID s) →
  ∃ s' r r',
    Handler_CreateTodo Decode clock body s
      = (s', sendJSON (DataTodo r) StatusCreated) ∧
    (resp_ID r, resp_Title r, resp_Description r, resp_Completed r,
     resp_Priority r, resp_Category r, resp_DueDate r, resp_CreatedAt r,
     resp_UpdatedAt r)
    = (nextID s, req_Title req, req_Description req, req_Completed req,
       req_Priority req, req_Category req, req_DueDate req, clock 0%nat,
       clock 0%nat) ∧
    nextID s' = incr (nextID s) ∧
    Handler_GetTodo Atoi clock' id_var s'
      = (s', sendJSON (DataTodo r') StatusOK) ∧
    (resp_ID r', resp_Title r', resp_Description r', resp_Completed r',
     resp_Priority r', resp_Category r', resp_DueDate r', resp_CreatedAt r',
     resp_UpdatedAt r')
    = (resp_ID r, resp_Title r, resp_Description r, resp_Completed r,
       resp_Priority r, resp_Category r, resp_DueDate r, resp_CreatedAt r,
       resp_UpdatedAt r).
Proof.
  intros Hbody Htitle Hid.
  unfold Handler_CreateTodo, Handler_GetTodo, GetTodoByID.
  rewrite Hbody. apply String.eqb_neq in Htitle. rewrite Htitle. simpl.
  eexists _, _, _. split; [reflexivity |]. split; [reflexivity |].
  split; [reflexivity |]. rewrite Hid. simpl. rewrite lookup_insert_eq.
  split; reflexivity.
Qed.

(** X15: PUT /api/todos/{id} then GET /api/todos/{id}.  For an id the store
    holds and a body that decodes to a request with a non-empty title, the
    answer is 200 with the request's six fields, the old id and created_at,
    and updated_at = the time of the update; a GET of that id is then
    answered 200 with the same nine stored fields.  For an id the store
    does not hold the answer is 404 and nothing changes. *)
Theorem PUT_then_GET (clock clock' : nat → Time) (id_var body : string)
  (id : Z) (req : TodoRequest) (s : MemoryStore) :
  Atoi id_var = Some id →
  Decode body = Some req →
  req_Title req ≠ "" →
  match todos s !! id with
  | None =>
      Handler_UpdateTodo Atoi Decode clock id_var body s
      = (s, sendError "更新失败" StatusNotFound)
  | Some old =>
      ∃ s' r r',
        Handler_UpdateTodo Atoi Decode clock id_var body s
          = (s', sendJSON (DataTodo r) StatusOK) ∧
        (resp_ID r, resp_Title r, resp_Description r, resp_Completed r,
         resp_Priority r, resp_Category r, resp_DueDate r, resp_CreatedAt r,
         resp_UpdatedAt r)
        = (ID old, req_Title req, req_Description req, req_Completed req,
           req_Priority req, req_Category req, req_DueDate req,
           CreatedAt old, clock 0%nat) ∧
        Handler_GetTodo Atoi clock' id_var s'
          = (s', sendJSON (DataTodo r') StatusOK) ∧
        (resp_ID r', resp_Title r', resp_Description r', resp_Completed r',
         resp_Priority r', resp_Category r', resp_DueDate r',
         resp_CreatedAt r', resp_UpdatedAt r')
        = (resp_ID r, resp_Title r, resp_Description r, resp_Completed r,
           resp_Priority r, resp_Category r, resp_DueDate r,
           resp_CreatedAt r, resp_UpdatedAt r)
  end.
Proof.
  intros Hid Hbody Htitle.
  unfold Handler_UpdateTodo, Handler_GetTodo, GetTodoByID, UpdateTodo.
  rewrite Hid, Hbody. apply String.eqb_neq in Htitle. rewrite Htitle.
  destruct (todos s !! id) as [old|] eqn:Hold; simpl; [| done].
  eexists _, _, _. split; [reflexivity |]. split; [reflexivity |].
  simpl. rewrite lookup_insert_eq. split; reflexivity.
Qed.

(** X16: DELETE /api/todos/{id}.  The answer is 200 when the store holds
    the id and 404 when it does not; either way, afterwards a GET and a
    second DELETE of the same id are answered 404, and every other todo is
    still there. *)
Theorem DELETE_then_gone (clock : nat → Time) (id_var : string) (id : Z)
  (s : MemoryStore) :
  Atoi id_var = Some id →
  let s' := (Handler_DeleteTodo Atoi id_var s).1 in
  (Handler_DeleteTodo Atoi id_var s).2
  = match todos s !! id with
    | Some _ => sendJSON (DataMap [("message", "删除成功")]) StatusOK
    | None => sendError "删除失败" StatusNotFound
    end ∧
  Handler_GetTodo Atoi clock id_var s'
    = (s', sendError "未找到" StatusNotFound) ∧
  Handler_DeleteTodo Atoi id_var s'
    = (s', sendError "删除失败" StatusNotFound) ∧
  (∀ id', id' ≠ id → todos s' !! id' = todos s !! id') ∧
  nextID s' = nextID s.
Proof.
  intros Hid.
  unfold Handler_DeleteTodo, Handler_GetTodo, GetTodoByID, DeleteTodo.
  rewrite Hid. destruct (todos s !! id) as [old|] eqn:Hold; simpl.
  - rewrite lookup_delete_eq. repeat split; try done.
    intros id' Hne. by rewrite lookup_delete_ne.
  - rewrite Hold. repeat split; done.
Qed.

(** X17: no request puts a todo with an empty title in the store: started
    from a newly constructed store, after any requests served one after
    the other, every stored todo has a non-empty title. *)
Theorem served_titles_never_empty (now : Time)
  (rs : list ((nat → Time) * api_request)) (id : Z) (todo : Todo) :
  todos (serve_all range_map sort_Slice Atoi Decode rs
           (NewMemoryStore now)).1 !! id = Some todo →
  Title todo ≠ "".
Proof.
  assert (Hstep : ∀ clock r s,
            (∀ id todo, todos s !! id = Some todo → Title todo ≠ "") →
            ∀ id todo,
              todos (serve range_map sort_Slice Atoi Decode clock r s).1
                !! id = Some todo →
              Title todo ≠ "").
  { intros clock r s Hs.
    destruct r as [|body|id_var|id_var body|id_var|id_var]; simpl.
    - exact Hs.
    - unfold Handler_CreateTodo.
      destruct (Decode body) as [req|]; simpl; [| exact Hs].
      destruct (String.eqb_spec (req_Title req) ""); simpl; [exact Hs |].
      intros id' t. rewrite lookup_insert_Some.
      intros [[_ <-] | [_ Hid']]; [done | by apply (Hs id')].
    - unfold Handler_GetTodo.
      destruct (Atoi id_var) as [id'|]; simpl; [| exact Hs].
      destruct (GetTodoByID s id'); exact Hs.
    - unfold Handler_UpdateTodo, UpdateTodo.
      destruct (Atoi id_var) as [id'|]; simpl; [| exact Hs].
      destruct (Decode body) as [req|]; simpl; [| exact Hs].
      destruct (String.eqb_spec (req_Title req) ""); simpl; [exact Hs |].
      destruct (todos s !! id') as [old|]; simpl; [| exact Hs].
      intros id'' t. rewrite lookup_insert_Some.
      intros [[_ <-] | [_ Hid']]; [done | by apply (Hs id'')].
    - unfold Handler_DeleteTodo, DeleteTodo.
      destruct (Atoi id_var) as [id'|]; simpl; [| exact Hs].
      destruct (todos s !! id') as [old|]; simpl; [| exact Hs].
      intros id'' t. rewrite lookup_delete_Some.
      intros [_ Hid']. by apply (Hs id'').
    - unfold Handler_CompleteTodo, GetTodoByID, UpdateTodo.
      destruct (Atoi id_var) as [id'|]; simpl; [| exact Hs].
      destruct (todos s !! id') as [old|] eqn:Hold; simpl; [| exact Hs].
      intros id'' t. rewrite lookup_insert_Some.
      intros [[_ <-] | [_ Hid']];
        [simpl; by apply (Hs id' old) | by apply (Hs id'')]. }
  assert (Hseed : ∀ id todo,
            todos (NewMemoryStore now) !! id = Some todo → Title todo ≠ "").
  { intros id' t. unfold NewMemoryStore, Seed. simpl.
    rewrite !lookup_insert_Some, lookup_empty.
    intros [[_ <-] | [_ [[_ <-] | [_ [[_ <-] | [_ ?]]]]]]; done. }
  revert id todo. generalize dependent (NewMemoryStore now).
  induction rs as [|[clock r] rs IH]; intros s Hs; [exact Hs |].
  rewrite serve_all_cons. cbv zeta. simpl fst. apply IH. by apply Hstep.
Qed.

End HandlerProperties.

Lemma Handler_CompleteTodo_spec_witness :
  let atoi := λ v : string, if String.eqb v "1" then Some 1 else None in
  ∃ s' r,
    Handler_CompleteTodo atoi (λ _, 100) "1" (NewMemoryStore 0)
      = (s', sendJSON (DataTodo r) StatusOK) ∧
    resp_Completed r = true ∧ resp_Status r = "已完成".
Proof.
  intros atoi.
  pose proof (Handler_CompleteTodo_spec atoi (λ _, 100) "1" 1
                (NewMemoryStore 0) eq_refl) as Hspec.
  destruct (todos (NewMemoryStore 0) !! 1) as [old|] eqn:Hold;
    [| vm_compute in Hold; discriminate].
  destruct Hspec as (s' & r & Hresp & Hcompleted & Hstatus & _).
  exists s', r. split; [exact Hresp |]. split; [exact Hcompleted | exact Hstatus].
Defined.

Lemma POST_then_GET_witness :
  let atoi := λ v : string, if String.eqb v "4" then Some 4 else None in
  let req := mkTodoRequest "Buy milk" "" false 99 "" 0 in
  let decode := λ _ : string, Some req in
  ∃ s' r r',
    Handler_CreateTodo decode (λ _, 100) "{}" (NewMemoryStore 0)
      = (s', sendJSON (DataTodo r) StatusCreated) ∧
    resp_ID r = 4 ∧ resp_Priority r = 99 ∧
    Handler_GetTodo atoi (λ _, 200) "4" s'
      = (s', sendJSON (DataTodo r') StatusOK) ∧
    resp_Title r' = "Buy milk".
Proof.
  intros atoi req decode.
  destruct (POST_then_GET atoi decode (λ _, 100) (λ _, 200) "{}" "4" req
              (NewMemoryStore 0))
    as (s' & r & r' & Hpost & Hr & _ & Hget & Hr');
    [reflexivity | discriminate | reflexivity |].
  exists s', r, r'. split; [exact Hpost |].
  injection Hr as Hid _ _ _ Hprio _ _ _ _.
  injection Hr' as _ Htitle' _ _ _ _ _ _ _.
  injection Hpost as <- <-.
  repeat split; first [exact Hget | done].
Defined.

Lemma PUT_then_GET_witness :
  let atoi := λ v : string, if String.eqb v "2" then Some 2 else None in
  let req := mkTodoRequest "Write tests" "" false 5 "" 0 in
  let decode := λ _ : string, Some req in
  ∃ s' r,
    Handler_UpdateTodo atoi decode (λ _, 100) "2" "{}" (NewMemoryStore 0)
      = (s', sendJSON (DataTodo r) StatusOK) ∧
    resp_Title r = "Write tests" ∧ resp_ID r = 2.
Proof.
  intros atoi req decode.
  pose proof (PUT_then_GET atoi decode (λ _, 100) (λ _, 200) "2" "{}" 2 req
                (NewMemoryStore 0) eq_refl eq_refl) as Hspec.
  destruct (todos (NewMemoryStore 0) !! 2) as [old|] eqn:Hold;
    [| vm_compute in Hold; discriminate].
  destruct Hspec as (s' & r & r' & Hput & Hr & _); [discriminate |].
  exists s', r. split; [exact Hput |].
  injection Hr as Hid Htitle _ _ _ _ _ _ _.
  split; [exact Htitle |]. rewrite Hid.
  injection Hold as <-. reflexivity.
Defined.

Lemma DELETE_then_gone_witness :
  let atoi := λ v : string, if String.eqb v "2" then Some 2 else None in
  let s' := (Handler_DeleteTodo atoi "2" (NewMemoryStore 0)).1 in
  statusCode (Handler_DeleteTodo atoi "2" (NewMemoryStore 0)).2 = 200 ∧
  statusCode (Handler_GetTodo atoi (λ _, 100) "2" s').2 = 404 ∧
  statusCode (Handler_DeleteTodo atoi "2" s').2 = 404.
Proof.
  intros atoi s'.
  destruct (DELETE_then_gone atoi (λ _, 100) "2" 2 (NewMemoryStore 0)
              eq_refl) as (Hdel & Hget & Hagain & _).
  fold s' in Hget, Hagain. rewrite Hdel, Hget, Hagain. repeat split.
Defined.

Lemma served_titles_never_empty_witness :
  let atoi := λ v : string, if String.eqb v "2" then Some 2 else None in
  let decode := λ body : string, Some (mkTodoRequest body "" false 0 "" 0) in
  let rs := [((λ _, 100) : nat → Time, POST_todos "");
             ((λ _, 200) : nat → Time, PUT_todo "2" "Write tests");
             ((λ _, 300) : nat → Time, PUT_todo "2" "")] in
  ∃ todo,
    todos (serve_all range_ascending insertion_sort atoi decode rs
             (NewMemoryStore 0)).1 !! 2 = Some todo ∧
    Title todo = "Write tests" ∧ Title todo ≠ "".
Proof.
  intros atoi decode rs. eexists. split; [reflexivity |].
  split; [reflexivity |].
  apply (served_titles_never_empty range_ascending insertion_sort atoi decode
           0 rs 2).
  reflexivity.
Defined.

Lemma StronglySorted_imap (f : nat → Todo → TodoResponse)
  (R : Todo → Todo → Prop) (R' : TodoResponse → TodoResponse → Prop)
  (l : list Todo) :
  (∀ i j a b, R a b → R' (f i a) (f j b)) →
  StronglySorted R l → StronglySorted R' (imap f l).
Proof.
  intros HR Hsorted. revert f HR.
  induction Hsorted as [|a l _ IH Hall]; intros f HR; [constructor |].
  rewrite imap_cons. constructor.
  - apply IH. intros i j. apply HR.
  - apply Forall_forall. intros r. rewrite elem_of_lookup_imap.
    intros (i & b & -> & Hb). apply HR.
    rewrite Forall_forall in Hall. apply Hall.
    by eapply list_elem_of_lookup_2.
Qed.

Section ListingHandler.

Variable range_map : gmap Z Todo → list (Z * Todo).
Variable sort_Slice : (Todo → Todo → bool) → list Todo → list Todo.
Hypothesis range_map_visits : ∀ m, range_map m ≡ₚ map_to_list m.
Hypothesis sort_Slice_permutes : ∀ less l, sort_Slice less l ≡ₚ l.
Hypothesis sort_Slice_sorts :
  ∀ less l, strict_weak_order less → sorted_by less (sort_Slice less l).

(** X18: GET /api/todos is answered 200 with one response for each stored
    todo and leaves the store as it was.  The ids listed are the ids of
    the stored todos, each once; created_at descends along the list; the
    i-th response is the response of a stored todo computed at the i-th
    reading of the clock. *)
Theorem Handler_GetTodos_lists_all (clock : nat → Time) (s : MemoryStore) :
  ∃ rs,
    Handler_GetTodos range_map sort_Slice clock s
      = (s, sendJSON (DataTodos rs) StatusOK) ∧
    length rs = size (todos s) ∧
    resp_ID <$> rs ≡ₚ ID <$> stored s ∧
    StronglySorted (λ a b, resp_CreatedAt b ≤ resp_CreatedAt a) rs ∧
    (∀ i r, rs !! i = Some r →
            ∃ id todo, todos s !! id = Some todo ∧
                       r = ToResponse (clock i) todo).
Proof.
  unfold Handler_GetTodos, GetAllTodos.
  set (l := sort_Slice less_created (range_map (todos s)).*2).
  assert (Hperm : l ≡ₚ stored s).
  { unfold l, stored. by rewrite sort_Slice_permutes, range_map_visits. }
  eexists. split; [reflexivity |]. split; [| split; [| split]].
  - by rewrite length_imap, Hperm, length_stored.
  - rewrite fmap_imap, <- Hperm.
    rewrite (imap_ext _ (const ID)) by done. by rewrite imap_const.
  - apply (StronglySorted_imap _ created_desc); [by intros i j a b |].
    eapply StronglySorted_weaken; [apply less_created_false |].
    apply sort_Slice_sorts, less_created_strict_weak_order.
  - intros i r. rewrite list_lookup_imap.
    destruct (l !! i) as [todo|] eqn:Hi; simpl; [| done].
    intros [= <-].
    assert (Hin : todo ∈ stored s).
    { rewrite <- Hperm. by eapply list_elem_of_lookup_2. }
    apply elem_of_stored in Hin as [id Hid]. eauto.
Qed.

End ListingHandler.

Lemma Handler_GetTodos_lists_all_witness :
  ∃ rs,
    Handler_GetTodos range_ascending insertion_sort (λ _, 100)
      (NewMemoryStore 0)
      = (NewMemoryStore 0, sendJSON (DataTodos rs) StatusOK) ∧
    resp_ID <$> rs = [3; 1; 2].
Proof.
  destruct (Handler_GetTodos_lists_all range_ascending insertion_sort
              range_ascending_visits insertion_sort_permutes
              insertion_sort_sorts (λ _, 100) (NewMemoryStore 0))
    as (rs & Hrs & _).
  exists rs. split; [exact Hrs |]. injection Hrs as <-. reflexivity.
Defined.

Section NewestFirst.

Variable range_map : gmap Z Todo → list (Z * Todo).
Variable sort_Slice : (Todo → Todo → bool) → list Todo → list Todo.
Hypothesis range_map_visits : ∀ m, range_map m ≡ₚ map_to_list m.
Hypothesis sort_Slice_permutes : ∀ less l, sort_Slice less l ≡ₚ l.
Hypothesis sort_Slice_sorts :
  ∀ less l, strict_weak_order less → sorted_by less (sort_Slice less l).

(** X19: a todo created when the clock reads later than every timestamp of
    the store is the first one GetAllTodos returns, followed by the todos
    the store had before. *)
Theorem newest_todo_listed_first (clk now : Time) (s : MemoryStore)
  (req : TodoRequest) :
  store_ok s →
  times_ok clk s →
  clk < now →
  ∃ todo rest,
    (CreateTodo now s req).2 = Ok todo ∧
    GetAllTodos range_map sort_Slice (CreateTodo now s req).1
      = Ok (todo :: rest) ∧
    rest ≡ₚ stored s.
Proof.
  intros Hok Htimes Hlater. eexists. simpl.
  set (todo := {| ID := nextID s; Title := req_Title req;
                  Description := req_Description req;
                  Completed := req_Completed req;
                  Priority := req_Priority req;
                  Category := req_Category req;
                  DueDate := req_DueDate req;
                  CreatedAt := now; UpdatedAt := now |}).
  unfold GetAllTodos. simpl.
  set (l := sort_Slice less_created
              (range_map (<[nextID s := todo]> (todos s))).*2).
  assert (Hfree : todos s !! nextID s = None).
  { destruct (todos s !! nextID s) as [t|] eqn:Ht; [| done].
    apply Hok in Ht as [_ ?]. lia. }
  assert (Hperm : l ≡ₚ todo :: stored s).
  { unfold l, stored.
    rewrite sort_Slice_permutes, range_map_visits.
    by rewrite map_to_list_insert. }
  assert (Hsorted : StronglySorted created_desc l).
  { eapply StronglySorted_weaken; [apply less_created_false |].
    apply sort_Slice_sorts, less_created_strict_weak_order. }
  assert (Hold : ∀ t, t ∈ stored s → CreatedAt t < now).
  { intros t [id Hid]%elem_of_stored. destruct (Htimes id t Hid). lia. }
  destruct l as [|h rest].
  { by apply Permutation_nil_cons in Hperm. }
  assert (Hhead : h = todo).
  { assert (Hh : h ∈ todo :: stored s) by (rewrite <- Hperm; left).
    apply elem_of_cons in Hh as [-> | Hh]; [done |].
    assert (Ht : todo ∈ h :: rest) by (rewrite Hperm; left).
    apply elem_of_cons in Ht as [-> | Ht]; [done |].
    apply StronglySorted_inv in Hsorted as [_ Hall].
    rewrite Forall_forall in Hall. specialize (Hall todo Ht).
    unfold created_desc in Hall. simpl in Hall.
    specialize (Hold h Hh). lia. }
  subst h. exists rest. split; [reflexivity |]. split; [reflexivity |].
  by apply Permutation_cons_inv in Hperm.
Qed.

End NewestFirst.

Lemma newest_todo_listed_first_witness :
  let req := mkTodoRequest "Buy milk" "" false 1 "" 0 in
  ∃ todo rest,
    GetAllTodos range_ascending insertion_sort
      (CreateTodo 10 (NewMemoryStore 5) req).1 = Ok (todo :: rest) ∧
    ID todo = 4 ∧ ID <$> rest = [3; 1; 2].
Proof.
  intros req.
  destruct (newest_todo_listed_first range_ascending insertion_sort
              range_ascending_visits insertion_sort_permutes
              insertion_sort_sorts 5 10 (NewMemoryStore 5) req)
    as (todo & rest & Hcreated & Hlist & _);
    [apply store_ok_NewMemoryStore | apply times_ok_NewMemoryStore | lia |].
  exists todo, rest. split; [exact Hlist |].
  injection Hlist as <- <-. split; reflexivity.
Defined.

(* ===================================================================== *)
(** * Concurrent callers *)
(* ===================================================================== *)

Lemma created_ids_app (tr1 tr2 : list (call * ret)) :
  created_ids (tr1 ++ tr2) = created_ids tr1 ++ created_ids tr2.
Proof.
  induction tr1 as [|[c r] tr1 IH]; [done |].
  rewrite <- app_comm_cons, (created_ids_cons c r (tr1 ++ tr2)),
    (created_ids_cons c r tr1), IH.
  by rewrite app_assoc.
Qed.

Lemma created_ids_not_create (c : call) (r : ret) :
  is_create c = false → created_ids [(c, r)] = [].
Proof. by destruct c. Qed.

Lemma takes_Lock_not_create (c : call) :
  takes_Lock c = false → is_create c = false.
Proof. by destruct c. Qed.

Lemma returned_ids_snoc (s : MemoryStore) (m : RWMutex)
  (gs : nat → position) (evs : list (nat * call * ret)) (g : nat) (c : call)
  (r : ret) :
  returned_ids (mkSystem s m gs (evs ++ [(g, c, r)]))
  = returned_ids (mkSystem s m gs evs) ++ created_ids [(c, r)].
Proof. unfold returned_ids. simpl. by rewrite fmap_app, created_ids_app. Qed.

Lemma StronglySorted_snoc (ids : list Z) (id : Z) :
  StronglySorted Z.lt ids → Forall (λ i, i < id) ids →
  StronglySorted Z.lt (ids ++ [id]).
Proof.
  intros Hsorted Hall. apply StronglySorted_app_2; [| done | repeat constructor].
  intros x1 x2 Hx1 Hx2. apply list_elem_of_singleton in Hx2 as ->.
  rewrite Forall_forall in Hall. by apply Hall.
Qed.

Lemma initial_invariant (now : Time) : invariant 0 (initial now).
Proof.
  constructor; unfold initial;
    cbn [store mu goroutines returned writer readers].
  - exists ∅. split; [reflexivity |]. intros g. split; [| discriminate].
    intros Hg. by apply not_elem_of_empty in Hg.
  - split; [discriminate | intros [g Hg]; discriminate].
  - intros g g' Hg. discriminate.
  - discriminate.
  - intros g c. discriminate.
  - change (nextID (NewMemoryStore now)) with 4. lia.
  - intros g req todo. discriminate.
  - intros g req todo. discriminate.
  - intros g req todo. discriminate.
  - constructor.
  - constructor.
  - intros g. discriminate.
  - intros _. reflexivity.
Qed.

Lemma returned_ids_same (σ : system) (s : MemoryStore) (m : RWMutex)
  (gs : nat → position) :
  returned_ids (mkSystem s m gs (returned σ)) = returned_ids σ.
Proof. reflexivity. Qed.

Lemma insert_same_class (f : position → bool) (gs : nat → position) (g : nat)
  (p : position) :
  f p = f (gs g) → ∀ g', f (<[g := p]> gs g') = f (gs g').
Proof.
  intros Hp g'. destruct (decide (g = g')) as [<- | Hne].
  - by rewrite fn_lookup_insert.
  - by rewrite fn_lookup_insert_ne.
Qed.

Lemma no_writer (n : nat) (σ : system) :
  invariant n σ → writer (mu σ) = false →
  ∀ g, is_writing (goroutines σ g) = false.
Proof.
  intros Hinv Hw g. destruct (is_writing (goroutines σ g)) eqn:Hg; [| done].
  assert (writer (mu σ) = true) by (apply (inv_writer n σ Hinv); eauto).
  congruence.
Qed.

Lemma writing_excludes (n : nat) (σ : system) (g : nat) :
  invariant n σ → is_writing (goroutines σ g) = true →
  writer (mu σ) = true ∧ readers (mu σ) = 0%nat ∧
  ∀ g', g' ≠ g → goroutines σ g' = Outside.
Proof.
  intros Hinv Hg.
  assert (Hw : writer (mu σ) = true) by (apply (inv_writer n σ Hinv); eauto).
  pose proof (inv_no_reader n σ Hinv Hw) as Hr.
  split; [exact Hw |]. split; [exact Hr |]. intros g' Hne.
  destruct (inv_readers n σ Hinv) as (R & Hsize & HR).
  assert (Hempty : R = ∅).
  { apply leibniz_equiv, size_empty_inv. congruence. }
  destruct (goroutines σ g') as [|c|c|req todo|req todo|req todo] eqn:Hg';
    [done | | | | |].
  - assert (g' ∈ R) by (apply HR; by rewrite Hg'). set_solver.
  - exfalso. apply Hne. apply (inv_one_writer n σ Hinv); [by rewrite Hg' | done].
  - exfalso. apply Hne. apply (inv_one_writer n σ Hinv); [by rewrite Hg' | done].
  - exfalso. apply Hne. apply (inv_one_writer n σ Hinv); [by rewrite Hg' | done].
  - exfalso. apply Hne. apply (inv_one_writer n σ Hinv); [by rewrite Hg' | done].
Qed.

Lemma forall_insert (Q : position → Prop) (gs : nat → position) (g : nat)
  (p : position) :
  (∀ g', Q (gs g')) → Q p → ∀ g', Q (<[g := p]> gs g').
Proof.
  intros Hall Hp g'. destruct (decide (g = g')) as [<- | Hne].
  - by rewrite fn_lookup_insert.
  - by rewrite fn_lookup_insert_ne.
Qed.

(** When the goroutine that moves is the writer, nothing is asked of the
    others: they are outside. *)
Lemma forall_insert_writer (Q : position → Prop) (n : nat) (σ : system)
  (g : nat) (p : position) :
  invariant n σ → is_writing (goroutines σ g) = true →
  Q Outside → Q p → ∀ g', Q (<[g := p]> (goroutines σ) g').
Proof.
  intros Hinv Hg Hout Hp g'.
  destruct (writing_excludes n σ g Hinv Hg) as (_ & _ & Hothers).
  destruct (decide (g = g')) as [<- | Hne].
  - by rewrite fn_lookup_insert.
  - rewrite fn_lookup_insert_ne by done. by rewrite Hothers.
Qed.

Section InterleavingProofs.

Variable range_map : gmap Z Todo → list (Z * Todo).
Variable sort_Slice : (Todo → Todo → bool) → list Todo → list Todo.

Lemma exec_not_create_nextID (now : Time) (c : call) (s : MemoryStore) :
  is_create c = false →
  nextID (exec range_map sort_Slice now c s).1 = nextID s.
Proof.
  destruct c as [|id|req|id req|id|q cat comp|]; simpl; try done.
  - intros _. unfold UpdateTodo. by destruct (todos s !! id).
  - intros _. unfold DeleteTodo. by destruct (todos s !! id).
Qed.

Ltac frame_rlocked Hinv :=
  apply (forall_insert (λ p, ∀ c0, p = RLocked c0 → takes_Lock c0 = false));
  [intros ?; apply (inv_rlocked _ _ Hinv) | discriminate].
Ltac frame_built Hinv :=
  apply (forall_insert (λ p, ∀ req todo, p = TodoBuilt req todo → _));
  [intros ?; apply (inv_built _ _ Hinv) | discriminate].
Ltac frame_stored Hinv :=
  apply (forall_insert (λ p, ∀ req todo, p = TodoStored req todo → _));
  [intros ?; apply (inv_stored _ _ Hinv) | discriminate].
Ltac frame_bumped Hinv :=
  apply (forall_insert (λ p, ∀ req todo, p = CounterBumped req todo → _));
  [intros ?; apply (inv_bumped _ _ Hinv) | discriminate].
Ltac frame_account_bumped Hinv Hg :=
  intros ?; rewrite (insert_same_class is_bumped) by (by rewrite Hg);
  apply (inv_account_bumped _ _ Hinv).
Ltac frame_account Hinv Hg :=
  let Hall := fresh "Hall" in
  let g0 := fresh "g0" in
  intros Hall; apply (inv_account _ _ Hinv); intros g0;
  specialize (Hall g0);
  by rewrite (insert_same_class is_bumped) in Hall by (by rewrite Hg).
Ltac frame_one_writer Hinv Hg :=
  intros ? ?; rewrite !(insert_same_class is_writing) by (by rewrite Hg);
  apply (inv_one_writer _ _ Hinv).
Ltac frame_writer Hinv Hg :=
  let g0 := fresh "g0" in
  let Hg0 := fresh "Hg0" in
  split;
  [ intros [g0 Hg0]%(inv_writer _ _ Hinv); exists g0;
    by rewrite (insert_same_class is_writing) by (by rewrite Hg)
  | intros [g0 Hg0]; apply (inv_writer _ _ Hinv); exists g0;
    by rewrite (insert_same_class is_writing) in Hg0 by (by rewrite Hg) ].
Ltac nobody_writes Hinv Hwriting :=
  apply (forall_insert_writer (λ p, is_writing p = false) _ _ _ _ Hinv
           Hwriting); reflexivity.

Lemma step_invariant (n : nat) (σ σ' : system) :
  invariant n σ →
  4 + Z.of_nat (S n) ≤ int_max →
  step range_map sort_Slice σ σ' →
  invariant (S n) σ'.
Proof.
  intros Hinv Hbound Hstep.
  pose proof (inv_counter n σ Hinv) as Hcounter.
  destruct (inv_readers n σ Hinv) as (R & Hsize & HR).
  destruct Hstep as [σ g c Hg Hc Hw | σ g c now Hg | σ g c Hg Hc Hw Hr
                    | σ g c now Hg Hc | σ g req now Hg | σ g req todo Hg
                    | σ g req todo Hg | σ g req todo Hg].
  - (* RLock *)
    pose proof (no_writer n σ Hinv Hw) as Hnw.
    constructor; cbn [store mu goroutines returned writer readers];
      rewrite ?returned_ids_same.
    + exists ({[g]} ∪ R). split.
      * rewrite size_union, size_singleton, Hsize; [done |].
        apply disjoint_singleton_l. rewrite HR, Hg. discriminate.
      * intros g0. rewrite elem_of_union, elem_of_singleton, HR.
        destruct (decide (g = g0)) as [<- | Hne].
        -- rewrite fn_lookup_insert. simpl. tauto.
        -- rewrite fn_lookup_insert_ne by done. split; [| tauto].
           intros [-> | ?]; done.
    + split; [discriminate |]. intros [g0 Hg0]. revert Hg0.
      rewrite (insert_same_class is_writing) by (by rewrite Hg).
      by rewrite Hnw.
    + frame_one_writer Hinv Hg.
    + discriminate.
    + apply (forall_insert (λ p, ∀ c0, p = RLocked c0 → takes_Lock c0 = false)).
      * intros g'. apply (inv_rlocked n σ Hinv).
      * by intros c0 [= <-].
    + lia.
    + frame_built Hinv.
    + frame_stored Hinv.
    + frame_bumped Hinv.
    + apply (inv_sorted n σ Hinv).
    + apply (inv_below n σ Hinv).
    + frame_account_bumped Hinv Hg.
    + frame_account Hinv Hg.
  - (* a read returns *)
    pose proof (inv_rlocked n σ Hinv g c Hg) as Hc.
    assert (Hids : ∀ s m gs,
              returned_ids
                (mkSystem s m gs
                   (returned σ ++
                    [(g, c, (exec range_map sort_Slice now c (store σ)).2)]))
              = returned_ids σ).
    { intros s m gs. rewrite returned_ids_snoc, returned_ids_same.
      rewrite created_ids_not_create by (by apply takes_Lock_not_create).
      apply app_nil_r. }
    constructor; cbn [store mu goroutines returned writer readers];
      rewrite ?Hids.
    + exists (R ∖ {[g]}). split.
      * rewrite size_difference, size_singleton, Hsize; [lia |].
        apply singleton_subseteq_l, HR. by rewrite Hg.
      * intros g0. rewrite elem_of_difference, elem_of_singleton, HR.
        destruct (decide (g = g0)) as [<- | Hne].
        -- rewrite fn_lookup_insert. simpl. split; [tauto | discriminate].
        -- rewrite fn_lookup_insert_ne by done. split; [tauto |].
           intros ?. split; [done | congruence].
    + frame_writer Hinv Hg.
    + frame_one_writer Hinv Hg.
    + intros Hw. by rewrite (inv_no_reader n σ Hinv Hw).
    + frame_rlocked Hinv.
    + lia.
    + frame_built Hinv.
    + frame_stored Hinv.
    + frame_bumped Hinv.
    + apply (inv_sorted n σ Hinv).
    + apply (inv_below n σ Hinv).
    + frame_account_bumped Hinv Hg.
    + frame_account Hinv Hg.
  - (* Lock *)
    pose proof (no_writer n σ Hinv Hw) as Hnw.
    constructor; cbn [store mu goroutines returned writer readers];
      rewrite ?returned_ids_same.
    + exists R. split; [exact Hsize |]. intros g0.
      rewrite (insert_same_class is_reading) by (by rewrite Hg). apply HR.
    + split; [| done]. intros _. exists g. by rewrite fn_lookup_insert.
    + intros g0 g'.
      destruct (decide (g = g0)) as [<- | Hne0];
        [| rewrite (fn_lookup_insert_ne _ g g0) by done; by rewrite Hnw].
      destruct (decide (g = g')) as [<- | Hne'];
        [done | rewrite (fn_lookup_insert_ne _ g g') by done; by rewrite Hnw].
    + intros _. exact Hr.
    + frame_rlocked Hinv.
    + lia.
    + frame_built Hinv.
    + frame_stored Hinv.
    + frame_bumped Hinv.
    + apply (inv_sorted n σ Hinv).
    + apply (inv_below n σ Hinv).
    + frame_account_bumped Hinv Hg.
    + frame_account Hinv Hg.
  - (* UpdateTodo or DeleteTodo returns *)
    assert (Hwriting : is_writing (goroutines σ g) = true) by (by rewrite Hg).
    pose proof (exec_not_create_nextID now c (store σ) Hc) as Hnext.
    assert (Hids : ∀ s m gs,
              returned_ids
                (mkSystem s m gs
                   (returned σ ++
                    [(g, c, (exec range_map sort_Slice now c (store σ)).2)]))
              = returned_ids σ).
    { intros s m gs. rewrite returned_ids_snoc, returned_ids_same.
      rewrite created_ids_not_create by done. apply app_nil_r. }
    constructor; cbn [store mu goroutines returned writer readers];
      rewrite ?Hids, ?Hnext.
    + exists R. split; [exact Hsize |]. intros g0.
      rewrite (insert_same_class is_reading) by (by rewrite Hg). apply HR.
    + split; [discriminate |]. intros [g0 Hg0]. revert Hg0.
      by rewrite (forall_insert_writer (λ p, is_writing p = false) n σ g
                    Outside Hinv Hwriting eq_refl eq_refl g0).
    + intros g0 g' Hg0. revert Hg0.
      by rewrite (forall_insert_writer (λ p, is_writing p = false) n σ g
                    Outside Hinv Hwriting eq_refl eq_refl g0).
    + discriminate.
    + frame_rlocked Hinv.
    + lia.
    + frame_built Hinv.
    + frame_stored Hinv.
    + frame_bumped Hinv.
    + apply (inv_sorted n σ Hinv).
    + apply (inv_below n σ Hinv).
    + frame_account_bumped Hinv Hg.
    + frame_account Hinv Hg.
  - (* CreateTodo builds the todo *)
    constructor; cbn [store mu goroutines returned writer readers];
      rewrite ?returned_ids_same.
    + exists R. split; [exact Hsize |]. intros g0.
      rewrite (insert_same_class is_reading) by (by rewrite Hg). apply HR.
    + frame_writer Hinv Hg.
    + frame_one_writer Hinv Hg.
    + apply (inv_no_reader n σ Hinv).
    + frame_rlocked Hinv.
    + lia.
    + apply (forall_insert (λ p, ∀ req0 todo, p = TodoBuilt req0 todo → _)).
      * intros g'. apply (inv_built n σ Hinv).
      * by intros req0 todo [= _ <-].
    + frame_stored Hinv.
    + frame_bumped Hinv.
    + apply (inv_sorted n σ Hinv).
    + apply (inv_below n σ Hinv).
    + frame_account_bumped Hinv Hg.
    + frame_account Hinv Hg.
  - (* CreateTodo stores the todo *)
    constructor;
      cbn [store mu goroutines returned writer readers nextID todos];
      rewrite ?returned_ids_same.
    + exists R. split; [exact Hsize |]. intros g0.
      rewrite (insert_same_class is_reading) by (by rewrite Hg). apply HR.
    + frame_writer Hinv Hg.
    + frame_one_writer Hinv Hg.
    + apply (inv_no_reader n σ Hinv).
    + frame_rlocked Hinv.
    + lia.
    + frame_built Hinv.
    + apply (forall_insert (λ p, ∀ req0 todo0, p = TodoStored req0 todo0 → _)).
      * intros g'. apply (inv_stored n σ Hinv).
      * intros req0 todo0 [= _ <-]. by apply (inv_built n σ Hinv g req).
    + frame_bumped Hinv.
    + apply (inv_sorted n σ Hinv).
    + apply (inv_below n σ Hinv).
    + frame_account_bumped Hinv Hg.
    + frame_account Hinv Hg.
  - (* CreateTodo increments the counter *)
    assert (Hwriting : is_writing (goroutines σ g) = true) by (by rewrite Hg).
    destruct (writing_excludes n σ g Hinv Hwriting) as (_ & _ & Hothers).
    pose proof (inv_stored n σ Hinv g req todo Hg) as Hid.
    assert (Hincr : incr (nextID (store σ)) = nextID (store σ) + 1).
    { apply incr_no_overflow. unfold int_min. lia. }
    assert (Hquiet : ∀ g0, is_bumped (goroutines σ g0) = false).
    { intros g0. destruct (decide (g0 = g)) as [-> | Hne];
        [by rewrite Hg | by rewrite Hothers]. }
    constructor;
      cbn [store mu goroutines returned writer readers nextID todos];
      rewrite ?returned_ids_same, ?Hincr.
    + exists R. split; [exact Hsize |]. intros g0.
      rewrite (insert_same_class is_reading) by (by rewrite Hg). apply HR.
    + frame_writer Hinv Hg.
    + frame_one_writer Hinv Hg.
    + apply (inv_no_reader n σ Hinv).
    + frame_rlocked Hinv.
    + lia.
    + apply (forall_insert_writer
               (λ p, ∀ req0 todo0, p = TodoBuilt req0 todo0 → _)
               n σ g _ Hinv Hwriting); discriminate.
    + apply (forall_insert_writer
               (λ p, ∀ req0 todo0, p = TodoStored req0 todo0 → _)
               n σ g _ Hinv Hwriting); discriminate.
    + apply (forall_insert_writer
               (λ p, ∀ req0 todo0, p = CounterBumped req0 todo0 → _)
               n σ g _ Hinv Hwriting); [discriminate |].
      intros req0 todo0 [= _ <-]. split; [lia |]. rewrite Hid.
      apply (inv_below n σ Hinv).
    + apply (inv_sorted n σ Hinv).
    + eapply Forall_impl; [apply (inv_below n σ Hinv) |].
      simpl. intros; lia.
    + intros g0 _. rewrite (inv_account n σ Hinv Hquiet). lia.
    + intros Hall. specialize (Hall g). by rewrite fn_lookup_insert in Hall.
  - (* CreateTodo returns *)
    assert (Hwriting : is_writing (goroutines σ g) = true) by (by rewrite Hg).
    destruct (inv_bumped n σ Hinv g req todo Hg) as [Hid Hbelow].
    assert (Hids : ∀ s m gs,
              returned_ids
                (mkSystem s m gs
                   (returned σ ++ [(g, CallCreateTodo req, RetTodo (Ok todo))]))
              = returned_ids σ ++ [ID todo]).
    { intros s m gs. by rewrite returned_ids_snoc, returned_ids_same. }
    constructor; cbn [store mu goroutines returned writer readers];
      rewrite ?Hids.
    + exists R. split; [exact Hsize |]. intros g0.
      rewrite (insert_same_class is_reading) by (by rewrite Hg). apply HR.
    + split; [discriminate |]. intros [g0 Hg0]. revert Hg0.
      by rewrite (forall_insert_writer (λ p, is_writing p = false) n σ g
                    Outside Hinv Hwriting eq_refl eq_refl g0).
    + intros g0 g' Hg0. revert Hg0.
      by rewrite (forall_insert_writer (λ p, is_writing p = false) n σ g
                    Outside Hinv Hwriting eq_refl eq_refl g0).
    + discriminate.
    + frame_rlocked Hinv.
    + lia.
    + frame_built Hinv.
    + frame_stored Hinv.
    + apply (forall_insert_writer
               (λ p, ∀ req0 todo0, p = CounterBumped req0 todo0 → _)
               n σ g _ Hinv Hwriting); discriminate.
    + apply StronglySorted_snoc; [apply (inv_sorted n σ Hinv) | exact Hbelow].
    + apply Forall_app. split; [apply (inv_below n σ Hinv) |].
      constructor; [lia | constructor].
    + apply (forall_insert_writer (λ p, is_bumped p = true → _)
               n σ g _ Hinv Hwriting); discriminate.
    + intros _. rewrite length_app. simpl.
      rewrite (inv_account_bumped n σ Hinv g) by (by rewrite Hg). lia.
Qed.

Lemma steps_invariant (n : nat) (now : Time) (σ : system) :
  4 + Z.of_nat n ≤ int_max →
  steps range_map sort_Slice n (initial now) σ →
  invariant n σ.
Proof.
  intros Hbound Hsteps. remember (initial now) as σ0 eqn:Hσ0.
  induction Hsteps as [|n σ0 σ1 σ2 Hsteps IH Hstep]; subst.
  - apply initial_invariant.
  - apply (step_invariant n σ1); [apply IH; [lia | done] | done | done].
Qed.

End InterleavingProofs.

Lemma StronglySorted_lt_NoDup (ids : list Z) :
  StronglySorted Z.lt ids → NoDup ids.
Proof.
  induction 1 as [|id ids _ IH Hlt]; constructor; [| exact IH].
  intros Hin. rewrite Forall_forall in Hlt. specialize (Hlt id Hin). lia.
Qed.

Section InterleavingProperties.

Variable range_map : gmap Z Todo → list (Z * Todo).
Variable sort_Slice : (Todo → Todo → bool) → list Todo → list Todo.

(** The four steps of CreateTodo, taken in a row by the goroutine that
    holds the lock, do what the sequential CreateTodo does. *)
Lemma create_steps_agree (σ : system) (g : nat) (req : TodoRequest)
  (now : Time) :
  goroutines σ g = Locked (CallCreateTodo req) →
  ∃ σ1 σ2 σ3 σ4,
    step range_map sort_Slice σ σ1 ∧ step range_map sort_Slice σ1 σ2 ∧
    step range_map sort_Slice σ2 σ3 ∧ step range_map sort_Slice σ3 σ4 ∧
    store σ4 = (CreateTodo now (store σ) req).1 ∧
    returned σ4
    = returned σ ++
      [(g, CallCreateTodo req, RetTodo (CreateTodo now (store σ) req).2)] ∧
    goroutines σ4 g = Outside ∧
    writer (mu σ4) = false.
Proof.
  intros Hg. eexists _, _, _, _.
  split; [by apply (step_build _ _ σ g req now) |].
  split; [eapply step_store; cbn [goroutines]; apply fn_lookup_insert |].
  split; [eapply step_bump; cbn [goroutines]; apply fn_lookup_insert |].
  split; [eapply step_create_return; cbn [goroutines]; apply fn_lookup_insert |].
  cbn [store returned goroutines mu writer].
  split; [reflexivity |]. split; [reflexivity |].
  split; [apply fn_lookup_insert | reflexivity].
Qed.

(** X20: goroutines calling the store concurrently.  In every system that
    the interleaved steps of any number of goroutines reach from a newly
    constructed store (while the counter stays in the range of [int]): a
    goroutine between [s.mu.Lock()] and its unlock, in CreateTodo,
    UpdateTodo or DeleteTodo, is alone, every other goroutine being
    outside of the lock, readers included; the ids the CreateTodo calls
    have returned increase in the order of the returns, so no two callers
    received the same id; and when no goroutine holds the lock the counter
    is 4 plus the number of CreateTodo calls that have returned, no
    increment being lost. *)
Theorem writers_exclude_and_ids_unique (n : nat) (now : Time) (σ : system) :
  4 + Z.of_nat n ≤ int_max →
  steps range_map sort_Slice n (initial now) σ →
  (∀ g g', g ≠ g' → is_writing (goroutines σ g) = true →
           goroutines σ g' = Outside) ∧
  StronglySorted Z.lt (returned_ids σ) ∧
  NoDup (returned_ids σ) ∧
  ((∀ g, goroutines σ g = Outside) →
   nextID (store σ) = 4 + Z.of_nat (length (returned_ids σ))).
Proof.
  intros Hbound Hsteps.
  pose proof (steps_invariant range_map sort_Slice n now σ Hbound Hsteps)
    as Hinv.
  split; [| split; [| split]].
  - intros g g' Hne Hg.
    destruct (writing_excludes n σ g Hinv Hg) as (_ & _ & Hothers).
    by apply Hothers.
  - apply (inv_sorted n σ Hinv).
  - apply StronglySorted_lt_NoDup, (inv_sorted n σ Hinv).
  - intros Hout. apply (inv_account n σ Hinv). intros g. by rewrite Hout.
Qed.

End InterleavingProperties.

Lemma writers_exclude_and_ids_unique_witness :
  let req := mkTodoRequest "Buy milk" "" false 1 "" 0 in
  ∃ σ,
    steps range_ascending insertion_sort 7 (initial 0) σ ∧
    returned_ids σ = [4] ∧
    goroutines σ 1%nat = RLocked CallGetAllTodos ∧
    goroutines σ 2%nat = RLocked CallGetStats ∧
    readers (mu σ) = 2%nat ∧
    NoDup (returned_ids σ).
Proof.
  intros req.
  assert (Hreach : ∃ σ,
            steps range_ascending insertion_sort 7 (initial 0) σ ∧
            returned_ids σ = [4] ∧
            goroutines σ 1%nat = RLocked CallGetAllTodos ∧
            goroutines σ 2%nat = RLocked CallGetStats ∧
            readers (mu σ) = 2%nat).
  { eexists. split.
    - eapply steps_S; [eapply steps_S; [eapply steps_S; [eapply steps_S;
        [eapply steps_S; [eapply steps_S; [eapply steps_S;
          [apply steps_O |] |] |] |] |] |] |].
      + by apply (step_Lock _ _ _ 0%nat (CallCreateTodo req)).
      + by apply (step_build _ _ _ 0%nat req 10).
      + by eapply (step_store _ _ _ 0%nat).
      + by eapply (step_bump _ _ _ 0%nat).
      + by eapply (step_create_return _ _ _ 0%nat).
      + by apply (step_RLock _ _ _ 1%nat CallGetAllTodos).
      + by apply (step_RLock _ _ _ 2%nat CallGetStats).
    - repeat split. }
  destruct Hreach as (σ & Hsteps & Hids & Hg1 & Hg2 & Hreaders).
  exists σ. split; [exact Hsteps |]. split; [exact Hids |].
  split; [exact Hg1 |]. split; [exact Hg2 |]. split; [exact Hreaders |].
  apply (writers_exclude_and_ids_unique range_ascending insertion_sort 7 0 σ);
    [vm_compute; discriminate | exact Hsteps].
Defined.

Lemma reading_excludes_writer (n : nat) (σ : system) (g : nat) :
  invariant n σ → is_reading (goroutines σ g) = true →
  writer (mu σ) = false ∧ ∀ g', is_writing (goroutines σ g') = false.
Proof.
  intros Hinv Hg.
  assert (Hw : writer (mu σ) = false).
  { destruct (writer (mu σ)) eqn:Hw; [| done].
    pose proof (inv_no_reader n σ Hinv Hw) as Hr.
    destruct (inv_readers n σ Hinv) as (R & Hsize & HR).
    assert (Hempty : R = ∅) by (apply leibniz_equiv, size_empty_inv; congruence).
    assert (Hin : g ∈ R) by (by apply HR).
    rewrite Hempty in Hin. by apply not_elem_of_empty in Hin. }
  split; [exact Hw |]. by apply (no_writer n σ Hinv).
Qed.

Section LockingDiscipline.

Variable range_map : gmap Z Todo → list (Z * Todo).
Variable sort_Slice : (Todo → Todo → bool) → list Todo → list Todo.

(** C9: goroutines calling the store concurrently, in every system that
    their interleaved steps reach from a newly constructed store (while
    the counter stays in the range of [int]).  Reads proceed together: a
    goroutine holding the read lock does not keep another one from taking
    it, and whoever holds it is in one of the four reads.  A read excludes
    every write: while a goroutine holds the read lock none is between
    [s.mu.Lock()] and its unlock in CreateTodo, UpdateTodo or DeleteTodo.
    Writes exclude each other: at most one goroutine is there.  The ids
    the CreateTodo calls have returned are all different, and when no
    goroutine holds the lock the counter is 4 plus the number of
    CreateTodo calls that have returned: no increment is lost. *)
Theorem rwmutex_discipline (n : nat) (now : Time) (σ : system) :
  4 + Z.of_nat n ≤ int_max →
  steps range_map sort_Slice n (initial now) σ →
  (∀ g1 g2 c2,
     is_reading (goroutines σ g1) = true →
     goroutines σ g2 = Outside →
     takes_Lock c2 = false →
     ∃ σ', step range_map sort_Slice σ σ' ∧
           goroutines σ' g1 = goroutines σ g1 ∧
           goroutines σ' g2 = RLocked c2) ∧
  (∀ g c, goroutines σ g = RLocked c → takes_Lock c = false) ∧
  (∀ g g', is_reading (goroutines σ g) = true →
           is_writing (goroutines σ g') = false) ∧
  (∀ g g', is_writing (goroutines σ g) = true →
           is_writing (goroutines σ g') = true → g = g') ∧
  NoDup (returned_ids σ) ∧
  ((∀ g, goroutines σ g = Outside) →
   nextID (store σ) = 4 + Z.of_nat (length (returned_ids σ))).
Proof.
  intros Hbound Hsteps.
  pose proof (steps_invariant range_map sort_Slice n now σ Hbound Hsteps)
    as Hinv.
  split; [| split; [| split; [| split; [| split]]]].
  - intros g1 g2 c2 Hg1 Hg2 Hc2.
    destruct (reading_excludes_writer n σ g1 Hinv Hg1) as [Hw _].
    eexists. split; [by apply (step_RLock _ _ σ g2 c2) |].
    cbn [goroutines]. split; [| apply fn_lookup_insert].
    apply fn_lookup_insert_ne. intros <-. by rewrite Hg2 in Hg1.
  - apply (inv_rlocked n σ Hinv).
  - intros g g' Hg. by apply (reading_excludes_writer n σ g Hinv Hg).
  - apply (inv_one_writer n σ Hinv).
  - apply StronglySorted_lt_NoDup, (inv_sorted n σ Hinv).
  - intros Hout. apply (inv_account n σ Hinv). intros g. by rewrite Hout.
Qed.

End LockingDiscipline.

Lemma rwmutex_discipline_witness :
  let req := mkTodoRequest "Buy milk" "" false 1 "" 0 in
  ∃ σ σ',
    steps range_ascending insertion_sort 6 (initial 0) σ ∧
    returned_ids σ = [4] ∧
    goroutines σ 1%nat = RLocked CallGetAllTodos ∧
    step range_ascending insertion_sort σ σ' ∧
    goroutines σ' 1%nat = RLocked CallGetAllTodos ∧
    goroutines σ' 2%nat = RLocked CallGetStats ∧
    NoDup (returned_ids σ).
Proof.
  intros req.
  assert (Hreach : ∃ σ,
            steps range_ascending insertion_sort 6 (initial 0) σ ∧
            returned_ids σ = [4] ∧
            goroutines σ 1%nat = RLocked CallGetAllTodos ∧
            goroutines σ 2%nat = Outside).
  { eexists. split.
    - eapply steps_S; [eapply steps_S; [eapply steps_S; [eapply steps_S;
        [eapply steps_S; [eapply steps_S; [apply steps_O |] |] |] |] |] |].
      + by apply (step_Lock _ _ _ 0%nat (CallCreateTodo req)).
      + by apply (step_build _ _ _ 0%nat req 10).
      + by eapply (step_store _ _ _ 0%nat).
      + by eapply (step_bump _ _ _ 0%nat).
      + by eapply (step_create_return _ _ _ 0%nat).
      + by apply (step_RLock _ _ _ 1%nat CallGetAllTodos).
    - repeat split. }
  destruct Hreach as (σ & Hsteps & Hids & Hg1 & Hg2).
  destruct (rwmutex_discipline range_ascending insertion_sort 6 0 σ)
    as (Htogether & _ & _ & _ & Hnodup & _);
    [vm_compute; discriminate | exact Hsteps |].
  destruct (Htogether 1%nat 2%nat CallGetStats) as (σ' & Hstep & H1 & H2);
    [by rewrite Hg1 | exact Hg2 | reflexivity |].
  exists σ, σ'. split; [exact Hsteps |]. split; [exact Hids |].
  split; [exact Hg1 |]. split; [exact Hstep |].
  split; [by rewrite H1 |]. split; [exact H2 | exact Hnodup].
Defined.
